(** * zthpool: block-reward schedule and payout ledger

    A shallow embedding of [payouts/unlocker.go] and [storage/redis.go.save]
    together with the properties of the reward resolver, the payout lock and
    the pending-payment ledger.

    Conventions.
    - [int64] values are integers [Z]; the code only compares and copies them.
    - [float64] values are Rocq's binary64 floats ([PrimFloat.float]); the
      reward code copies them and never does arithmetic on them.  Go's [>=] on
      floats is [PrimFloat.leb] with its arguments swapped.
    - Go strings are byte strings ([string]).
    - A Go [(T, error)] return is a [result T]: [Err e] stands for the pair of
      the zero value ([nil], [false]) and the non-nil error [e].
    - [log.Printf] lines are not part of the model. *)

From Stdlib Require Import ZArith NArith Floats Bool Ascii String List.
From Stdlib Require Import DecimalString DecimalZ DecimalFacts DecimalPos.
From stdpp Require Import gmap strings list fin_maps sorting.

Local Open Scope Z_scope.

(* ===================================================================== *)
(** ** payouts/unlocker.go *)
(* ===================================================================== *)

Module Payouts.

(** The two network-name constants.  The Go file declares the name
    [ZetherTestnet] twice (a constant and a variable); the constant carries a
    suffix here. *)
Definition ZetherMainnet : string := "ZetherMainnet".
Definition ZetherTestnet_const : string := "ZetherTestnet".

(** [type NetworkConfig struct]; [BlockReward] is a [map[int64]float64]. *)
Record NetworkConfig := {
  Name : string;
  BlockReward : gmap Z float;
  AdjustmentFreq : Z;
  HasUncles : bool
}.

Definition ZetherRewards_literal : list (Z * float) :=
  [ (0, 50%float); (100000, 25%float); (200000, 12.5%float); (300000, 6.25%float) ].

Definition TestnetRewards_literal : list (Z * float) :=
  [ (0, 50%float); (1000, 25%float); (2000, 12.5%float); (3000, 6.25%float) ].

Definition ZetherRewards : gmap Z float := list_to_map ZetherRewards_literal.
Definition TestnetRewards : gmap Z float := list_to_map TestnetRewards_literal.

Definition ZetherNetwork : NetworkConfig :=
  {| Name := ZetherMainnet; BlockReward := ZetherRewards;
     AdjustmentFreq := 100000; HasUncles := false |}.

Definition ZetherTestnet : NetworkConfig :=
  {| Name := ZetherTestnet_const; BlockReward := TestnetRewards;
     AdjustmentFreq := 1000; HasUncles := false |}.

(** [for height, r := range m]: Go leaves the iteration order of a map
    unspecified, and it may differ from one loop to the next.  One execution
    of the loop visits every entry once, in some order: any permutation of
    the entries. *)
Definition range_order (m : gmap Z float) (entries : list (Z * float)) : Prop :=
  entries ≡ₚ map_to_list m.

(** The body of the loop of [GetReward], run over the entries still to visit,
    [reward] being the local variable:
      if blockHeight >= height { reward = r } else { break } *)
Fixpoint range_body (blockHeight : Z) (reward : float) (entries : list (Z * float)) : float :=
  match entries with
  | [] => reward
  | (height, r) :: rest =>
      if blockHeight >=? height then range_body blockHeight r rest else reward
  end.

(** [GetReward] along one iteration order: [reward := 0.0], the loop,
    [return reward]. *)
Definition GetReward_along (entries : list (Z * float)) (blockHeight : Z) : float :=
  range_body blockHeight 0%float entries.

(** [GetReward config blockHeight] may return [reward]. *)
Definition GetReward (config : NetworkConfig) (blockHeight : Z) (reward : float) : Prop :=
  ∃ entries, range_order (BlockReward config) entries
             ∧ GetReward_along entries blockHeight = reward.

(** What [SimulateUnlock] does: [log.Fatalf] ends the process after logging
    its message; otherwise three lines are printed, and a fourth when the
    network has no uncles. *)
Inductive Outcome :=
| Fatalf (format : string) (arg : Z)
| Printed (network : string) (height : Z) (reward : float) (uncle_note : bool).

Definition SimulateUnlock (networkConfig : NetworkConfig) (blockHeight : Z)
    (out : Outcome) : Prop :=
  if blockHeight <? 0 then out = Fatalf "Invalid block height: %d" blockHeight
  else ∃ reward, GetReward networkConfig blockHeight reward
                 ∧ out = Printed (Name networkConfig) blockHeight reward
                           (negb (HasUncles networkConfig)).

(** Go's [a >= b] on [float64]. *)
Definition float_ge (a b : float) : bool := PrimFloat.leb b a.

(** The breakpoint of [m] in force at height [h]: the entry with the largest
    [minHeight] among those with [minHeight <= h]. *)
Definition latest_breakpoint (m : gmap Z float) (h minHeight : Z) (rewardAmount : float) : Prop :=
  m !! minHeight = Some rewardAmount ∧ minHeight ≤ h
  ∧ ∀ k r, m !! k = Some r → k ≤ h → k ≤ minHeight.

(** The result the schedule prescribes at height [h]. *)
Definition resolves (m : gmap Z float) (h : Z) (reward : float) : Prop :=
  (∃ minHeight, latest_breakpoint m h minHeight reward)
  ∨ ((∀ k r, m !! k = Some r → h < k) ∧ reward = 0%float).

(** Breakpoints in ascending order of height. *)
Definition ascending (entries : list (Z * float)) : Prop :=
  StronglySorted (λ a b, a.1 < b.1) entries.

(** Rewards that never grow along the list: the reward of an entry is [>=]
    the reward of every entry from it on, itself included (so none of them
    is a NaN, which is [>=] nothing). *)
Definition decaying (entries : list (Z * float)) : Prop :=
  StronglySorted (λ a b, float_ge a.2 b.2 = true) entries
  ∧ Forall (λ a, float_ge a.2 a.2 = true) entries.

(** *** Sample schedules and iteration orders *)

(** An order that starts at the second breakpoint and comes to the first
    one last. *)
Definition mainnet_rotated : list (Z * float) :=
  [ (100000, 25%float); (200000, 12.5%float); (300000, 6.25%float); (0, 50%float) ].

(** An order that starts at the third breakpoint. *)
Definition mainnet_rotated_twice : list (Z * float) :=
  [ (200000, 12.5%float); (300000, 6.25%float); (0, 50%float); (100000, 25%float) ].

(** A schedule whose only breakpoint is at height 100. *)
Definition late_start : NetworkConfig :=
  {| Name := "late start"; BlockReward := {[ 100 := 50%float ]};
     AdjustmentFreq := 100; HasUncles := false |}.

End Payouts.

(* ===================================================================== *)
(** ** encoding/json, as far as [json.Unmarshal] into a struct of one string
       and two [int64] fields goes *)
(* ===================================================================== *)

Module Json.

Local Open Scope N_scope.

Definition code (c : ascii) : N := N_of_ascii c.
Definition chr (n : N) : ascii := ascii_of_N n.
Definition is_char (c x : ascii) : bool := Ascii.eqb c x.
Arguments is_char c%_char x%_char.
Definition between (lo hi : N) (c : ascii) : bool := (lo <=? code c) && (code c <=? hi).

#[local] Set Warnings "-register-all".

(** A parsed JSON text.  A number keeps its literal: how it is read depends
    on the Go type it is stored into. *)
Inductive json :=
| JNull
| JBool (b : bool)
| JNumber (literal : list ascii)
| JString (s : list ascii)
| JArray (items : list json)
| JObject (members : list (list ascii * json)).

(** *** UTF-8 *)

Definition continuation (c : ascii) : bool := between 128 191 c.

(** Second byte of a three- or four-byte sequence led by [c0]. *)
Definition second_byte (c0 c1 : ascii) : bool :=
  let n := code c0 in
  if n =? 224 then between 160 191 c1
  else if n =? 237 then between 128 159 c1
  else if n =? 240 then between 144 191 c1
  else if n =? 244 then between 128 143 c1
  else continuation c1.

(** [utf8.DecodeRune]: the width of the encoding at the head of [s], [0] when
    there is none (Go then yields [RuneError] with width 1). *)
Definition rune_len (s : list ascii) : nat :=
  match s with
  | [] => 0%nat
  | c0 :: t =>
      if code c0 <? 128 then 1%nat
      else if between 194 223 c0 then
        match t with
        | c1 :: _ => if continuation c1 then 2%nat else 0%nat
        | _ => 0%nat
        end
      else if between 224 239 c0 then
        match t with
        | c1 :: c2 :: _ =>
            if second_byte c0 c1 && continuation c2 then 3%nat else 0%nat
        | _ => 0%nat
        end
      else if between 240 244 c0 then
        match t with
        | c1 :: c2 :: c3 :: _ =>
            if second_byte c0 c1 && continuation c2 && continuation c3
            then 4%nat else 0%nat
        | _ => 0%nat
        end
      else 0%nat
  end.

(** [utf8.EncodeRune] of a code point that is no surrogate. *)
Definition encode_rune (r : N) : list ascii :=
  if r <? 128 then [chr r]
  else if r <? 2048 then [chr (192 + r / 64); chr (128 + r mod 64)]
  else if r <? 65536 then
    [chr (224 + r / 4096); chr (128 + (r / 64) mod 64); chr (128 + r mod 64)]
  else
    [chr (240 + r / 262144); chr (128 + (r / 4096) mod 64);
     chr (128 + (r / 64) mod 64); chr (128 + r mod 64)].

(** U+FFFD, [unicode.ReplacementChar]. *)
Definition replacement : list ascii := encode_rune 65533.

(** [utf8.Valid], written with a count of continuation bytes still due. *)
Fixpoint utf8_valid_from (due : nat) (s : list ascii) : bool :=
  match s with
  | [] => match due with O => true | S _ => false end
  | c :: t =>
      match due with
      | S due' => continuation c && utf8_valid_from due' t
      | O => match rune_len (c :: t) with
             | O => false
             | S n => utf8_valid_from n t
             end
      end
  end.

Definition utf8_valid (s : list ascii) : bool := utf8_valid_from 0 s.

(** *** String literals *)

Definition hex_digit (c : ascii) : option N :=
  if between 48 57 c then Some (code c - 48)
  else if between 97 102 c then Some (code c - 87)
  else if between 65 70 c then Some (code c - 55)
  else None.

(** [getu4] past the backslash and the [u]. *)
Definition hex4 (s : list ascii) : option N :=
  match s with
  | a :: b :: c :: d :: _ =>
      match hex_digit a, hex_digit b, hex_digit c, hex_digit d with
      | Some a, Some b, Some c, Some d => Some (((a * 16 + b) * 16 + c) * 16 + d)
      | _, _, _, _ => None
      end
  | _ => None
  end.

(** The escape that follows a backslash: the bytes it stands for and the
    number of bytes it takes after the backslash. *)
Definition escape_at (t : list ascii) : option (list ascii * nat) :=
  match t with
  | [] => None
  | c :: u =>
      if is_char c "034" || is_char c "\" || is_char c "/" then Some ([c], 1%nat)
      else if is_char c "b" then Some ([chr 8], 1%nat)
      else if is_char c "f" then Some ([chr 12], 1%nat)
      else if is_char c "n" then Some ([chr 10], 1%nat)
      else if is_char c "r" then Some ([chr 13], 1%nat)
      else if is_char c "t" then Some ([chr 9], 1%nat)
      else if is_char c "u" then
        match hex4 u with
        | None => None
        | Some rr =>
            if (55296 <=? rr) && (rr <? 57344) then
              match skipn 4 u with
              | b :: c' :: v =>
                  match (if is_char b "\" && is_char c' "u" then hex4 v else None) with
                  | Some rr1 =>
                      if (rr <? 56320) && (56320 <=? rr1) && (rr1 <? 57344)
                      then Some (encode_rune (65536 + (rr - 55296) * 1024 + (rr1 - 56320)),
                                 11%nat)
                      else Some (replacement, 5%nat)
                  | None => Some (replacement, 5%nat)
                  end
              | _ => Some (replacement, 5%nat)
              end
            else Some (encode_rune rr, 5%nat)
        end
      else None
  end.

(** Where the reader of a string literal stands: at a fresh character, inside
    a multi-byte character with [n] bytes still to copy, or inside an escape
    with [n] bytes still to pass over. *)
Inductive mode := Fresh | Copy (n : nat) | Pass (n : nat).

Definition copy (n : nat) : mode := match n with O => Fresh | S _ => Copy n end.
Definition pass (n : nat) : mode := match n with O => Fresh | S _ => Pass n end.

Definition emit {A} (out : list ascii) (r : option (list ascii * A)) : option (list ascii * A) :=
  match r with Some (s, rest) => Some (out ++ s, rest) | None => None end.

(** The scanner's string state together with [unquote]: [s] starts after the
    opening quote; the result is the string the literal stands for and the
    text after the closing quote.  Invalid UTF-8 is read as U+FFFD, one byte
    at a time. *)
Fixpoint read_string (m : mode) (s : list ascii) : option (list ascii * list ascii) :=
  match s with
  | [] => None
  | c :: t =>
      match m with
      | Copy (S n) => emit [c] (read_string (copy n) t)
      | Pass (S n) => read_string (pass n) t
      | _ =>
          if is_char c "034" then Some ([], t)
          else if is_char c "\" then
            match escape_at t with
            | Some (out, n) => emit out (read_string (pass n) t)
            | None => None
            end
          else if code c <? 32 then None
          else if code c <? 128 then emit [c] (read_string Fresh t)
          else match rune_len (c :: t) with
               | O => emit replacement (read_string Fresh t)
               | S n => emit [c] (read_string (copy n) t)
               end
      end
  end.

(** *** Numbers, literals and white space *)

Definition is_space (c : ascii) : bool :=
  is_char c " " || (code c =? 9) || (code c =? 10) || (code c =? 13).

Fixpoint skip_space (s : list ascii) : list ascii :=
  match s with
  | c :: t => if is_space c then skip_space t else s
  | [] => []
  end.

Definition is_digit (c : ascii) : bool := between 48 57 c.

(** The characters a number is made of. *)
Definition number_char (c : ascii) : bool :=
  is_digit c || is_char c "-" || is_char c "+" || is_char c "."
  || is_char c "e" || is_char c "E".

Fixpoint span_number (s : list ascii) : list ascii * list ascii :=
  match s with
  | c :: t =>
      if number_char c then let (lit, rest) := span_number t in (c :: lit, rest)
      else ([], s)
  | [] => ([], [])
  end.

Fixpoint skip_digits (s : list ascii) : list ascii :=
  match s with
  | c :: t => if is_digit c then skip_digits t else s
  | [] => []
  end.

(** One digit at least, then whatever [k] accepts. *)
Definition digits1 (k : list ascii → bool) (s : list ascii) : bool :=
  match s with
  | c :: t => is_digit c && k (skip_digits t)
  | [] => false
  end.

Definition at_end (s : list ascii) : bool :=
  match s with [] => true | _ => false end.

Definition exponent (s : list ascii) : bool :=
  match s with
  | [] => true
  | c :: t =>
      (is_char c "e" || is_char c "E")
      && match t with
         | d :: u => if is_char d "+" || is_char d "-" then digits1 at_end u
                     else digits1 at_end t
         | [] => false
         end
  end.

Definition fraction (s : list ascii) : bool :=
  match s with
  | c :: t => if is_char c "." then digits1 exponent t else exponent s
  | [] => true
  end.

(** The grammar of a JSON number: an optional minus sign; a zero, or a digit
    from 1 to 9 and any digits; optionally a point and digits; optionally an
    exponent, which is [e] or [E], an optional sign and digits. *)
Definition number_literal (s : list ascii) : bool :=
  let s := match s with
           | c :: t => if is_char c "-" then t else s
           | [] => s
           end in
  match s with
  | c :: t => if is_char c "0" then fraction t
              else is_digit c && fraction (skip_digits t)
  | [] => false
  end.

(** [s] starts with the characters of [word]; what follows them. *)
Fixpoint strip_prefix (word s : list ascii) : option (list ascii) :=
  match word with
  | [] => Some s
  | w :: word' =>
      match s with
      | c :: t => if Ascii.eqb c w then strip_prefix word' t else None
      | [] => None
      end
  end.

(** *** Values *)

(** One JSON value at the head of [s] and the text after it.  [fuel] bounds
    the number of values and object members entered; every one of them takes
    a character of the text at least. *)
Fixpoint parse_value (fuel : nat) (s : list ascii) : option (json * list ascii) :=
  match fuel with
  | O => None
  | S fuel' =>
      match skip_space s with
      | [] => None
      | c :: t =>
          if is_char c "{" then
            match skip_space t with
            | [] => None
            | c' :: t' =>
                if is_char c' "}" then Some (JObject [], t')
                else match parse_members fuel' (c' :: t') with
                     | Some (ms, rest) => Some (JObject ms, rest)
                     | None => None
                     end
            end
          else if is_char c "[" then
            match skip_space t with
            | [] => None
            | c' :: t' =>
                if is_char c' "]" then Some (JArray [], t')
                else match parse_items fuel' (c' :: t') with
                     | Some (vs, rest) => Some (JArray vs, rest)
                     | None => None
                     end
            end
          else if is_char c "034" then
            match read_string Fresh t with
            | Some (str, rest) => Some (JString str, rest)
            | None => None
            end
          else if is_char c "t" then
            option_map (pair (JBool true)) (strip_prefix (list_ascii_of_string "rue") t)
          else if is_char c "f" then
            option_map (pair (JBool false)) (strip_prefix (list_ascii_of_string "alse") t)
          else if is_char c "n" then
            option_map (pair JNull) (strip_prefix (list_ascii_of_string "ull") t)
          else
            let (lit, rest) := span_number (c :: t) in
            if number_literal lit then Some (JNumber lit, rest) else None
      end
  end
with parse_members (fuel : nat) (s : list ascii)
    : option (list (list ascii * json) * list ascii) :=
  match fuel with
  | O => None
  | S fuel' =>
      match s with
      | [] => None
      | q :: t =>
          if is_char q "034" then
            match read_string Fresh t with
            | None => None
            | Some (key, t1) =>
                match skip_space t1 with
                | [] => None
                | colon :: t2 =>
                    if is_char colon ":" then
                      match parse_value fuel' t2 with
                      | None => None
                      | Some (v, t3) =>
                          match skip_space t3 with
                          | [] => None
                          | sep :: t4 =>
                              if is_char sep "}" then Some ([(key, v)], t4)
                              else if is_char sep "," then
                                match parse_members fuel' (skip_space t4) with
                                | Some (ms, rest) => Some ((key, v) :: ms, rest)
                                | None => None
                                end
                              else None
                          end
                      end
                    else None
                end
            end
          else None
      end
  end
with parse_items (fuel : nat) (s : list ascii) : option (list json * list ascii) :=
  match fuel with
  | O => None
  | S fuel' =>
      match parse_value fuel' s with
      | None => None
      | Some (v, t1) =>
          match skip_space t1 with
          | [] => None
          | sep :: t2 =>
              if is_char sep "]" then Some ([v], t2)
              else if is_char sep "," then
                match parse_items fuel' t2 with
                | Some (vs, rest) => Some (v :: vs, rest)
                | None => None
                end
              else None
          end
      end
  end.

(** [checkValid]: the whole text is one JSON value with white space around. *)
Definition parse (text : list ascii) : option json :=
  match parse_value (S (length text)) text with
  | Some (v, rest) => if at_end (skip_space rest) then Some v else None
  | None => None
  end.

(** *** Bytes that no string literal stands for *)

(** No byte of [s] is 255. *)
Definition below_255 (s : list ascii) : Prop := Forall (λ c, code c < 255) s.

(** The bytes the reader copies blindly in mode [m] are below 255. *)
Definition mode_ok (m : mode) (s : list ascii) : Prop :=
  match m with
  | Copy n => Forall (λ b, code b < 255) (take n s)
  | _ => True
  end.

(** A value that is a string has no byte 255. *)
Definition string_below_255 (v : json) : Prop :=
  match v with JString s => below_255 s | _ => True end.

End Json.

(* ===================================================================== *)
(** ** storage/redis.go.save *)
(* ===================================================================== *)

Module Storage.

Import Json.

(** Go [error] values, as far as the code tells them apart: [redis.Nil], any
    other error of the client (a reply such as [WRONGTYPE], or a failure to
    reach the server), the two errors of [json.Unmarshal], and
    [fmt.Errorf("msg: %w", err)]. *)
Inductive error :=
| redis_Nil
| redis_Error (msg : string)
| json_SyntaxError
| json_UnmarshalTypeError (value : string) (field : string)
| Errorf (msg : string) (err : error).

(** [errors.Is(err, redis.Nil)]: [err] or an error it wraps is [redis.Nil]. *)
Fixpoint errors_Is_Nil (err : error) : bool :=
  match err with
  | redis_Nil => true
  | Errorf _ err' => errors_Is_Nil err'
  | _ => false
  end.

Inductive result (A : Type) :=
| Ok (a : A)
| Err (err : error).
Arguments Ok {A} a.
Arguments Err {A} err.

(** *** The Redis server behind [r.client] *)

Inductive RedisValue :=
| RString (s : string)
| RSet (members : gset string).

Inductive Command :=
| KEYS (pattern : string)
| GET (key : string)
| SET (key value : string)
| DEL (key : string)
| SMEMBERS (key : string).

(** [type RedisClient struct]: the connection stands for the keyspace of the
    server it reaches, [db], and for the commands that fail on the way,
    [fault]; a command that fails leaves the keyspace as it was. *)
Record RedisClient := {
  db : gmap string RedisValue;
  fault : Command → option string
}.

Definition with_db (r : RedisClient) (d : gmap string RedisValue) : RedisClient :=
  {| db := d; fault := fault r |}.

(** Glob matching of [KEYS], for patterns of plain characters, [?] and [*]. *)
Fixpoint glob_match (pattern s : list ascii) : bool :=
  match pattern with
  | [] => at_end s
  | p :: pattern' =>
      if is_char p "*" then
        (fix star (s : list ascii) : bool :=
           glob_match pattern' s
           || match s with [] => false | _ :: s' => star s' end) s
      else
        match s with
        | [] => false
        | c :: s' => (is_char p "?" || Ascii.eqb p c) && glob_match pattern' s'
        end
  end.

Definition wrong_type : error :=
  redis_Error "WRONGTYPE Operation against a key holding the wrong kind of value".

(** [r.client.Keys(ctx, pattern).Result()] *)
Definition client_Keys (r : RedisClient) (pattern : string) : result (list string) :=
  match fault r (KEYS pattern) with
  | Some msg => Err (redis_Error msg)
  | None =>
      Ok (List.filter
            (λ key, glob_match (list_ascii_of_string pattern) (list_ascii_of_string key))
            (map fst (map_to_list (db r))))
  end.

(** [r.client.Get(ctx, key).Result()] *)
Definition client_Get (r : RedisClient) (key : string) : result string :=
  match fault r (GET key) with
  | Some msg => Err (redis_Error msg)
  | None =>
      match db r !! key with
      | None => Err redis_Nil
      | Some (RString val) => Ok val
      | Some (RSet _) => Err wrong_type
      end
  end.

(** [r.client.Set(ctx, key, value, 0).Err()], and the client afterwards. *)
Definition client_Set (r : RedisClient) (key value : string) : option error * RedisClient :=
  match fault r (SET key value) with
  | Some msg => (Some (redis_Error msg), r)
  | None => (None, with_db r (<[key := RString value]> (db r)))
  end.

(** [r.client.Del(ctx, key).Err()], and the client afterwards: deleting a key
    that does not exist is a reply of 0 keys removed, not an error. *)
Definition client_Del (r : RedisClient) (key : string) : option error * RedisClient :=
  match fault r (DEL key) with
  | Some msg => (Some (redis_Error msg), r)
  | None => (None, with_db r (delete key (db r)))
  end.

(** [r.client.SMembers(ctx, key).Result()] *)
Definition client_SMembers (r : RedisClient) (key : string) : result (list string) :=
  match fault r (SMEMBERS key) with
  | Some msg => Err (redis_Error msg)
  | None =>
      match db r !! key with
      | None => Ok []
      | Some (RSet members) => Ok (elements members)
      | Some (RString _) => Err wrong_type
      end
  end.

(** *** PendingPayment and its JSON form *)

(** [type PendingPayment struct] *)
Record PendingPayment := {
  Address : string;
  Amount : Z;
  Timestamp : Z
}.

Definition int64 (n : Z) : Prop := -2 ^ 63 ≤ n < 2 ^ 63.

(** A field name with its letters folded, as the decoder compares the keys of
    an object with the fields of a struct: the case of a letter does not
    count, and U+017F and U+212A count as [s] and [k]. *)
Fixpoint fold_name (s : list ascii) : list ascii :=
  match s with
  | [] => []
  | c :: t =>
      if between 97 122 c then chr (code c - 32) :: fold_name t
      else
        match t with
        | [] => [c]
        | c1 :: t1 =>
            if (code c =? 197)%N && (code c1 =? 191)%N then "S"%char :: fold_name t1
            else
              match t1 with
              | [] => c :: fold_name t
              | c2 :: t2 =>
                  if (code c =? 226)%N && (code c1 =? 132)%N && (code c2 =? 170)%N
                  then "K"%char :: fold_name t2
                  else c :: fold_name t
              end
        end
  end.

Definition names (key : list ascii) (field : string) : bool :=
  bool_decide (fold_name key = fold_name (list_ascii_of_string field)).

(** [strconv.ParseInt(s, 10, 64)] of a JSON number literal. *)
Definition ParseInt (literal : list ascii) : option Z :=
  match NilZero.int_of_string (string_of_list_ascii literal) with
  | Some d =>
      let n := Z.of_int d in
      if (- 2 ^ 63 <=? n) && (n <? 2 ^ 63) then Some n else None
  | None => None
  end.

(** The [Value] of an [UnmarshalTypeError]. *)
Definition describe (v : json) : string :=
  match v with
  | JNull => "null"
  | JBool _ => "bool"
  | JNumber literal => "number " ++ string_of_list_ascii literal
  | JString _ => "string"
  | JArray _ => "array"
  | JObject _ => "object"
  end.

(** The decoder's state inside an object: the struct as filled so far and the
    first error saved ([d.saveError]); decoding goes on after an error. *)
Definition decoding : Type := PendingPayment * option error.

Definition saveError (saved : option error) (err : error) : option error :=
  match saved with Some _ => saved | None => Some err end.

Definition store_string (v : json) (field : string) (old : string)
    (saved : option error) : string * option error :=
  match v with
  | JString s => (string_of_list_ascii s, saved)
  | JNull => (old, saved)
  | _ => (old, saveError saved (json_UnmarshalTypeError (describe v) field))
  end.

Definition store_int64 (v : json) (field : string) (old : Z)
    (saved : option error) : Z * option error :=
  match v with
  | JNumber literal =>
      match ParseInt literal with
      | Some n => (n, saved)
      | None => (old, saveError saved (json_UnmarshalTypeError (describe v) field))
      end
  | JNull => (old, saved)
  | _ => (old, saveError saved (json_UnmarshalTypeError (describe v) field))
  end.

(** One member of the object: the field the key names is set from the value;
    a key that names no field is passed over. *)
Definition store_member (st : decoding) (member : list ascii * json) : decoding :=
  let (payment, saved) := st in
  let (key, v) := member in
  if names key "Address" then
    let (a, saved') := store_string v "Address" (Address payment) saved in
    ({| Address := a; Amount := Amount payment; Timestamp := Timestamp payment |}, saved')
  else if names key "Amount" then
    let (n, saved') := store_int64 v "Amount" (Amount payment) saved in
    ({| Address := Address payment; Amount := n; Timestamp := Timestamp payment |}, saved')
  else if names key "Timestamp" then
    let (n, saved') := store_int64 v "Timestamp" (Timestamp payment) saved in
    ({| Address := Address payment; Amount := Amount payment; Timestamp := n |}, saved')
  else st.

(** [var payment PendingPayment; json.Unmarshal([]byte(val), &payment)]: the
    error, or [payment] afterwards. *)
Definition json_Unmarshal (val : string) : result PendingPayment :=
  let zero := {| Address := EmptyString; Amount := 0; Timestamp := 0 |} in
  match parse (list_ascii_of_string val) with
  | None => Err json_SyntaxError
  | Some JNull => Ok zero
  | Some (JObject members) =>
      match fold_left store_member members (zero, None) with
      | (payment, None) => Ok payment
      | (_, Some err) => Err err
      end
  | Some v => Err (json_UnmarshalTypeError (describe v) EmptyString)
  end.

(** *** The methods of [RedisClient] *)

(** The loop of [GetPendingPayments] over the keys still to fetch. *)
Fixpoint GetPendingPayments_loop (r : RedisClient) (keys : list string)
    (payments : list PendingPayment) : result (list PendingPayment) :=
  match keys with
  | [] => Ok payments
  | key :: keys' =>
      match client_Get r key with
      | Err err => Err (Errorf ("failed to get payment data for key " ++ key) err)
      | Ok val =>
          match json_Unmarshal val with
          | Err err => Err (Errorf "failed to unmarshal payment data" err)
          | Ok payment => GetPendingPayments_loop r keys' (payments ++ [payment])
          end
      end
  end.

Definition GetPendingPayments (r : RedisClient) : result (list PendingPayment) :=
  match client_Keys r "pending_payment:*" with
  | Err err => Err (Errorf "failed to get pending payments" err)
  | Ok keys => GetPendingPayments_loop r keys []
  end.

(** The key is fetched and its value decodes to [p]. *)
Definition fetched (r : RedisClient) (key : string) (p : PendingPayment) : Prop :=
  ∃ val, client_Get r key = Ok val ∧ json_Unmarshal val = Ok p.

(** The key cannot be fetched, or its value cannot be decoded. *)
Definition fetch_fails (r : RedisClient) (key : string) : Prop :=
  (∃ err, client_Get r key = Err err)
  ∨ (∃ val err, client_Get r key = Ok val ∧ json_Unmarshal val = Err err).

Definition IsPayoutsLocked (r : RedisClient) : result bool :=
  match client_Get r "payouts_locked" with
  | Err err =>
      if errors_Is_Nil err then Ok false
      else Err (Errorf "failed to check payouts lock" err)
  | Ok val => Ok (bool_decide (val = "1"))
  end.

Definition DeleteOldMinerData (r : RedisClient) (key : string) : option error * RedisClient :=
  match client_Del r key with
  | (Some err, r') => (Some (Errorf "failed to delete old miner data" err), r')
  | (None, r') => (None, r')
  end.

Definition DeleteOldShareData (r : RedisClient) (key : string) : option error * RedisClient :=
  match client_Del r key with
  | (Some err, r') => (Some (Errorf "failed to delete old share data" err), r')
  | (None, r') => (None, r')
  end.

Definition GetBlacklist (r : RedisClient) : result (list string) :=
  match client_SMembers r "blacklist" with
  | Err err => Err (Errorf "failed to get blacklist" err)
  | Ok val => Ok val
  end.

Definition GetWhitelist (r : RedisClient) : result (list string) :=
  match client_SMembers r "whitelist" with
  | Err err => Err (Errorf "failed to get whitelist" err)
  | Ok val => Ok val
  end.

(** *** Writing a pending payment *)

Definition hex (n : N) : ascii := if (n <? 10)%N then chr (48 + n) else chr (87 + n).

(** A character inside a JSON string literal: the quote, the backslash and
    the control characters are escaped. *)
Definition escape (c : ascii) : list ascii :=
  if is_char c "034" then ["\"; "034"]%char
  else if is_char c "\" then ["\"; "\"]%char
  else if (code c <? 32)%N then
    ["\"; "u"; "0"; "0"]%char ++ [hex (code c / 16); hex (code c mod 16)]
  else [c].

Definition quoted (s : list ascii) : list ascii :=
  "034"%char :: flat_map escape s ++ ["034"%char].

Definition decimal (n : Z) : list ascii :=
  list_ascii_of_string (NilZero.string_of_int (Z.to_int n)).

Definition chars : string → list ascii := list_ascii_of_string.

(** Modelled from the spec: the code that writes pending payments is not in
    the repository.  The spec gives the stored form as the JSON object
    [{"Address": string, "Amount": integer, "Timestamp": integer}]; this is
    the object without white space, the integers in decimal. *)
Definition json_of_PendingPayment (p : PendingPayment) : string :=
  string_of_list_ascii
    ("{"%char :: quoted (chars "Address") ++ ":"%char :: quoted (chars (Address p))
     ++ ","%char :: quoted (chars "Amount") ++ ":"%char :: decimal (Amount p)
     ++ ","%char :: quoted (chars "Timestamp") ++ ":"%char :: decimal (Timestamp p)
     ++ ["}"%char]).

(** Modelled from the spec: a payment is persisted under a key of the
    [pending_payment:] name space with [SET]. *)
Definition persist (r : RedisClient) (id : string) (p : PendingPayment)
    : option error * RedisClient :=
  client_Set r ("pending_payment:" ++ id) (json_of_PendingPayment p).

(** A client that reaches an empty server. *)
Definition empty_server : RedisClient := {| db := ∅; fault := λ _, None |}.

(** A client that reaches no server. *)
Definition no_server : RedisClient :=
  {| db := ∅; fault := λ _, Some "dial tcp 127.0.0.1:6379: connect: connection refused" |}.

(** A payment whose address is the single byte 255, which is not UTF-8. *)
Definition odd_payment : PendingPayment :=
  {| Address := String (chr 255) EmptyString; Amount := 1000; Timestamp := 1700000000 |}.

Definition sample_payment : PendingPayment :=
  {| Address := "0xabc"; Amount := 1000; Timestamp := 1700000000 |}.

(** A server with one well-formed payment and one value that is no JSON. *)
Definition broken_ledger : RedisClient :=
  {| db := <[ "pending_payment:0xdef" := RString "1000 ZTH" ]>
             (db (persist empty_server "0xabc" sample_payment).2);
     fault := λ _, None |}.

End Storage.

(* ===================================================================== *)
(** ** The rest of the two files *)
(* ===================================================================== *)

Module Walk.

Import Payouts.

(** The entries whose reward the loop of [GetReward] assigns: those it
    visits before the first one above the height, where it breaks. *)
Fixpoint assigned (blockHeight : Z) (entries : list (Z * float)) : list (Z * float) :=
  match entries with
  | [] => []
  | (height, r) :: rest =>
      if blockHeight >=? height then (height, r) :: assigned blockHeight rest else []
  end.

End Walk.

Module Writes.

Import Json Storage.

(** [StoreExchangeData]: [r.client.Set(ctx, key, value, 0).Err()] with a
    [float64] value.  The client sends a float as the text
    [strconv.AppendFloat(b, v, 'f', -1, 64)]; [FormatFloat] stands for that
    function of the Go library. *)
Definition StoreExchangeData (FormatFloat : float → string)
    (r : RedisClient) (key : string) (value : float) : option error * RedisClient :=
  match client_Set r key (FormatFloat value) with
  | (Some err, r') => (Some (Errorf "failed to store exchange data" err), r')
  | (None, r') => (None, r')
  end.

(** [WriteMinerCharts]: [json.Marshal(data)], then [SET key jsonData].
    [data] is an [interface{}]; [json_Marshal] stands for [json.Marshal] on
    the values of the type [Data] of [data], with the error it returns on
    those it cannot write. *)
Definition WriteMinerCharts {Data : Type} (json_Marshal : Data → result string)
    (r : RedisClient) (key : string) (data : Data) : option error * RedisClient :=
  match json_Marshal data with
  | Err err => (Some (Errorf "failed to marshal chart data" err), r)
  | Ok jsonData =>
      match client_Set r key jsonData with
      | (Some err, r') => (Some (Errorf "failed to write miner chart data" err), r')
      | (None, r') => (None, r')
      end
  end.

Definition WritePoolCharts {Data : Type} (json_Marshal : Data → result string)
    (r : RedisClient) (key : string) (data : Data) : option error * RedisClient :=
  match json_Marshal data with
  | Err err => (Some (Errorf "failed to marshal pool chart data" err), r)
  | Ok jsonData =>
      match client_Set r key jsonData with
      | (Some err, r') => (Some (Errorf "failed to write pool chart data" err), r')
      | (None, r') => (None, r')
      end
  end.

(** *** JSON objects as a writer may store them *)

(** A member of a stored object that names a field of [PendingPayment],
    with the value it gives it. *)
Inductive field :=
| FAddress (a : string)
| FAmount (n : Z)
| FTimestamp (n : Z).

Definition field_name (f : field) : string :=
  match f with
  | FAddress _ => "Address"
  | FAmount _ => "Amount"
  | FTimestamp _ => "Timestamp"
  end.

Definition value_text (f : field) : list ascii :=
  match f with
  | FAddress a => quoted (chars a)
  | FAmount n | FTimestamp n => decimal n
  end.

(** The JSON value of a member, as the text above is read. *)
Definition value_json (f : field) : json :=
  match f with
  | FAddress a => JString (chars a)
  | FAmount n | FTimestamp n => JNumber (decimal n)
  end.

Definition member_text (m : list ascii * field) : list ascii :=
  quoted m.1 ++ ":"%char :: value_text m.2.

Fixpoint members_text (ms : list (list ascii * field)) : list ascii :=
  match ms with
  | [] => []
  | [m] => member_text m
  | m :: ms' => member_text m ++ ","%char :: members_text ms'
  end.

(** The object with the members [ms], each a key and the field it is meant
    for, in this order and without white space. *)
Definition object_text (ms : list (list ascii * field)) : string :=
  string_of_list_ascii ("{"%char :: members_text ms ++ ["}"%char]).

(** The key is text and names the field, whatever the case of its letters;
    the value fits the Go type of the field. *)
Definition well_formed (m : list ascii * field) : Prop :=
  utf8_valid m.1 = true ∧ names m.1 (field_name m.2) = true
  ∧ match m.2 with
    | FAddress a => utf8_valid (chars a) = true
    | FAmount n | FTimestamp n => int64 n
    end.

(** The struct with one field set. *)
Definition set_field (p : PendingPayment) (f : field) : PendingPayment :=
  match f with
  | FAddress a => {| Address := a; Amount := Amount p; Timestamp := Timestamp p |}
  | FAmount n => {| Address := Address p; Amount := n; Timestamp := Timestamp p |}
  | FTimestamp n => {| Address := Address p; Amount := Amount p; Timestamp := n |}
  end.

Definition zero_payment : PendingPayment :=
  {| Address := EmptyString; Amount := 0; Timestamp := 0 |}.

(** *** Sample values *)

(** Members in another order than the fields, in other letter cases, one of
    them twice. *)
Definition shuffled_members : list (list ascii * field) :=
  [ (chars "timestamp", FTimestamp 1700000000);
    (chars "ADDRESS", FAddress "0xabc");
    (chars "amount", FAmount 1);
    (chars "Amount", FAmount 1000) ].

(** A server that holds the lock and a blacklist, and no pending payment. *)
Definition idle_server : RedisClient :=
  {| db := <[ "payouts_locked" := RString "1" ]>
             {[ "blacklist" := RSet {[ "0xbad" ]} ]};
     fault := λ _, None |}.

(** [FormatFloat] on the float 1: the text [1]. *)
Definition format_one (v : float) : string := "1".

(** [json.Marshal] on the integers: the decimal text. *)
Definition marshal_int64 (n : Z) : result string :=
  Ok (string_of_list_ascii (decimal n)).


End Writes.

(* ===================================================================== *)
(** ** The reward resolver *)
(* ===================================================================== *)

Module PayoutsFacts.

Import Payouts.

(** Two floats that compare differently with a third are different. *)
Ltac float_discriminate witness :=
  let H := fresh in
  intros H; apply (f_equal (PrimFloat.leb witness)) in H;
  vm_compute in H; discriminate H.

Lemma zero_is_not_50 : 0%float ≠ 50%float.
Proof. float_discriminate 50%float. Qed.

Lemma zero_is_not_25 : 0%float ≠ 25%float.
Proof. float_discriminate 25%float. Qed.

Lemma fifty_is_not_6_25 : 50%float ≠ 6.25%float.
Proof. float_discriminate 50%float. Qed.

(** *** The loop along an ascending order *)

(** Along an ascending order the loop ends on the last entry at or below the
    height, or leaves [reward] as it was when the first entry is above it. *)
Lemma range_body_ascending (entries : list (Z * float)) (h : Z) :
  ascending entries →
  ∀ reward,
    (∃ k, (k, range_body h reward entries) ∈ entries ∧ k ≤ h
          ∧ ∀ k' r', (k', r') ∈ entries → k' ≤ h → k' ≤ k)
    ∨ ((∀ k' r', (k', r') ∈ entries → h < k') ∧ range_body h reward entries = reward).
Proof.
  induction 1 as [|[k0 r0] rest Hrest IH Hall]; intros reward.
  - right. split; [|done]. intros k' r' Hin. by apply elem_of_nil in Hin.
  - cbn [range_body]. destruct (Z.geb_spec h k0) as [Hge|Hlt].
    + left. destruct (IH r0) as [(k & Hin & Hle & Hmax)|[Habove Heq]].
      * exists k. split; [by apply list_elem_of_further|]. split; [done|].
        intros k' r' [[= -> ->]|Hin']%elem_of_cons Hk'; [|by eauto].
        rewrite Forall_forall in Hall. specialize (Hall _ Hin). simpl in Hall. lia.
      * exists k0. rewrite Heq. split; [by apply list_elem_of_here|]. split; [lia|].
        intros k' r' [[= -> ->]|Hin']%elem_of_cons Hk'; [lia|].
        specialize (Habove _ _ Hin'). lia.
    + right. split; [|done].
      intros k' r' [[= -> ->]|Hin']%elem_of_cons; [lia|].
      rewrite Forall_forall in Hall. specialize (Hall _ Hin'). simpl in Hall. lia.
Qed.

(** When the loop happens to visit the breakpoints in ascending order,
    [GetReward] returns what the schedule prescribes. *)
Lemma GetReward_along_ascending (m : gmap Z float) (entries : list (Z * float)) (h : Z) :
  range_order m entries → ascending entries →
  resolves m h (GetReward_along entries h).
Proof.
  intros Hperm Hasc.
  assert (Hin : ∀ k r, (k, r) ∈ entries ↔ m !! k = Some r).
  { intros k r. unfold range_order in Hperm. rewrite Hperm.
    apply elem_of_map_to_list. }
  unfold GetReward_along.
  destruct (range_body_ascending entries h Hasc 0%float)
    as [(k & Hk & Hle & Hmax)|[Habove Heq]].
  - left. exists k. split; [by apply Hin|]. split; [done|].
    intros k' r' Hk'. apply Hmax with r'. by apply Hin.
  - right. split; [|done]. intros k' r' Hk'. apply Habove with r'. by apply Hin.
Qed.



(** The result the schedule prescribes is unique. *)
Lemma resolves_unique (m : gmap Z float) (h : Z) (r1 r2 : float) :
  resolves m h r1 → resolves m h r2 → r1 = r2.
Proof.
  intros [(k1 & H1 & Hle1 & Hmax1)|[Habove1 ->]] [(k2 & H2 & Hle2 & Hmax2)|[Habove2 ->]].
  - assert (k1 = k2) as -> by (specialize (Hmax1 _ _ H2 Hle2);
                               specialize (Hmax2 _ _ H1 Hle1); lia).
    congruence.
  - specialize (Habove2 _ _ H1). lia.
  - specialize (Habove1 _ _ H2). lia.
  - done.
Qed.

(** *** The orders of the mainnet schedule *)

Lemma range_order_literal (l entries : list (Z * float)) :
  NoDup l.*1 → entries ≡ₚ l → range_order (list_to_map l) entries.
Proof.
  intros Hnodup Hperm. unfold range_order.
  by rewrite Hperm, (map_to_list_to_map l Hnodup).
Qed.

Lemma ZetherRewards_keys : NoDup ZetherRewards_literal.*1.
Proof. apply (bool_decide_unpack _). by vm_compute. Qed.

(** The order of the map literal. *)
Lemma mainnet_in_order : range_order ZetherRewards ZetherRewards_literal.
Proof. by apply range_order_literal; [apply ZetherRewards_keys|]. Qed.

Lemma mainnet_rotated_order : range_order ZetherRewards mainnet_rotated.
Proof.
  apply range_order_literal; [apply ZetherRewards_keys|].
  symmetry. apply (Permutation_cons_append (tl ZetherRewards_literal)).
Qed.

Lemma ZetherRewards_lookup (k : Z) (r : float) :
  ZetherRewards !! k = Some r ↔ (k, r) ∈ ZetherRewards_literal.
Proof.
  symmetry. apply (elem_of_list_to_map (M := gmap Z)), ZetherRewards_keys.
Qed.

Lemma ZetherRewards_keys_are (k : Z) (r : float) :
  ZetherRewards !! k = Some r → k = 0 ∨ k = 100000 ∨ k = 200000 ∨ k = 300000.
Proof.
  rewrite ZetherRewards_lookup. unfold ZetherRewards_literal.
  rewrite !elem_of_cons, elem_of_nil. intros [H|[H|[H|[H|[]]]]]; inversion H; auto.
Qed.

Lemma mainnet_rotated_twice_order : range_order ZetherRewards mainnet_rotated_twice.
Proof.
  unfold range_order. rewrite <- mainnet_rotated_order. symmetry.
  apply (Permutation_cons_append (tl mainnet_rotated)).
Qed.

(** At height 50000 the breakpoint in force on mainnet is the one at 0. *)
Lemma mainnet_50000_in_force : latest_breakpoint ZetherRewards 50000 0 50%float.
Proof.
  split; [|split; [lia|]].
  - apply ZetherRewards_lookup. apply list_elem_of_here.
  - intros k r Hk Hle. apply ZetherRewards_keys_are in Hk. lia.
Qed.

(** *** Decaying schedules *)

Lemma decaying_pairs (entries : list (Z * float)) :
  ascending entries → decaying entries →
  ∀ k1 r1 k2 r2, (k1, r1) ∈ entries → (k2, r2) ∈ entries → k1 ≤ k2 →
                 float_ge r1 r2 = true.
Proof.
  induction 1 as [|[k0 r0] rest Hrest IH Hkeys]; intros [Hdec Hnum] k1 r1 k2 r2 H1 H2 Hle.
  - by apply elem_of_nil in H1.
  - apply StronglySorted_inv in Hdec as [Hdec Hhead].
    apply Forall_cons in Hnum as [Hnum0 Hnum].
    rewrite Forall_forall in Hkeys, Hhead.
    apply elem_of_cons in H1 as [[= -> ->]|H1]; apply elem_of_cons in H2 as [[= -> ->]|H2].
    + exact Hnum0.
    + exact (Hhead _ H2).
    + specialize (Hkeys _ H1). simpl in Hkeys. lia.
    + by apply (IH (conj Hdec Hnum) k1 r1 k2 r2).
Qed.

Lemma late_start_order : range_order (BlockReward late_start) [(100, 50%float)].
Proof. unfold range_order. simpl. by rewrite map_to_list_singleton. Qed.

(** *** Negative heights *)

Lemma range_body_below (entries : list (Z * float)) (h : Z) (reward : float) :
  (∀ k r, (k, r) ∈ entries → h < k) → range_body h reward entries = reward.
Proof.
  destruct entries as [|[k r] rest]; [done|]. intros Habove. cbn [range_body].
  destruct (Z.geb_spec h k) as [Hge|]; [|done].
  specialize (Habove k r (list_elem_of_here _ _)). lia.
Qed.

Lemma GetReward_total (config : NetworkConfig) (h : Z) :
  ∃ reward, GetReward config h reward.
Proof.
  exists (GetReward_along (map_to_list (BlockReward config)) h).
  exists (map_to_list (BlockReward config)). split; [|reflexivity].
  unfold range_order. reflexivity.
Qed.

(* --------------------------------------------------------------------- *)
(** *** The claims *)
(* --------------------------------------------------------------------- *)

(** C1.  The resolver is to return the reward of the breakpoint with the
    largest [minHeight] at or below the height.  On the mainnet schedule at
    height 50000 that breakpoint is [(0, 50.0)], yet [GetReward] returns 0.0
    when the loop over the map meets the breakpoint at 100000 first: it
    breaks on the first entry.  0.0 is not what the schedule prescribes. *)
Theorem GetReward_can_miss_the_breakpoint_in_force :
  latest_breakpoint ZetherRewards 50000 0 50%float
  ∧ GetReward ZetherNetwork 50000 0%float
  ∧ ¬ resolves ZetherRewards 50000 0%float.
Proof.
  split; [apply mainnet_50000_in_force|]. split.
  - exists mainnet_rotated. split; [apply mainnet_rotated_order|reflexivity].
  - intros Hres. apply zero_is_not_50.
    apply (resolves_unique ZetherRewards 50000); [done|].
    left. exists 0. apply mainnet_50000_in_force.
Qed.

(** C2, as stated, fails: a schedule in ascending order with decaying rewards
    whose first breakpoint lies above height 0 resolves to 0.0 below that
    breakpoint and to its reward from there on. *)
Lemma decaying_rewards_counterexample :
  ¬ (∀ config h1 h2 r1 r2,
       (∃ entries, range_order (BlockReward config) entries
                   ∧ ascending entries ∧ decaying entries) →
       0 ≤ h1 → h1 ≤ h2 →
       GetReward config h1 r1 → GetReward config h2 r2 →
       float_ge r1 r2 = true).
Proof.
  intros Hclaim.
  assert (Hge : float_ge 0 50 = true); [|vm_compute in Hge; discriminate Hge].
  apply (Hclaim late_start 0 100).
  - exists [(100, 50%float)]. split; [apply late_start_order|]. split.
    + repeat constructor.
    + split; repeat constructor.
  - lia.
  - lia.
  - exists [(100, 50%float)]. split; [apply late_start_order|reflexivity].
  - exists [(100, 50%float)]. split; [apply late_start_order|reflexivity].
Qed.

(** C2, amended.  Along an ascending order of a schedule whose rewards never
    grow (none a NaN), from the lowest breakpoint on: for [h1 <= h2] the
    reward at [h1] is at least the reward at [h2]. *)
Theorem GetReward_along_non_increasing (config : NetworkConfig)
    (entries : list (Z * float)) (h1 h2 : Z) :
  range_order (BlockReward config) entries →
  ascending entries → decaying entries →
  (∃ k r, BlockReward config !! k = Some r ∧ k ≤ h1) →
  h1 ≤ h2 →
  float_ge (GetReward_along entries h1) (GetReward_along entries h2) = true.
Proof.
  intros Hperm Hasc Hdec (k & r & Hk & Hkle) Hle.
  assert (Hin : (k, r) ∈ entries).
  { unfold range_order in Hperm. rewrite Hperm. by apply elem_of_map_to_list. }
  unfold GetReward_along.
  destruct (range_body_ascending entries h1 Hasc 0%float)
    as [(k1 & Hk1 & Hle1 & Hmax1)|[Habove _]];
    [|specialize (Habove _ _ Hin); lia].
  destruct (range_body_ascending entries h2 Hasc 0%float)
    as [(k2 & Hk2 & Hle2 & Hmax2)|[Habove _]];
    [|specialize (Habove _ _ Hin); lia].
  apply (decaying_pairs entries Hasc Hdec k1 _ k2 _ Hk1 Hk2).
  apply (Hmax2 _ _ Hk1). lia.
Qed.

Lemma GetReward_along_non_increasing_witness :
  float_ge (GetReward_along ZetherRewards_literal 50000)
           (GetReward_along ZetherRewards_literal 150000) = true.
Proof.
  apply (GetReward_along_non_increasing ZetherNetwork ZetherRewards_literal 50000 150000).
  - apply mainnet_in_order.
  - unfold ascending, ZetherRewards_literal.
    repeat (constructor; [|repeat (constructor; [simpl; lia|]); constructor]).
    constructor.
  - split; unfold ZetherRewards_literal.
    + repeat (constructor; [|repeat (constructor; [reflexivity|]); constructor]).
      constructor.
    + repeat (constructor; [reflexivity|]). constructor.
  - exists 0, 50%float. split; [|lia]. apply mainnet_50000_in_force.
  - lia.
Defined.

(** C3.  Two evaluations of [GetReward] on the same schedule and height can
    differ: on mainnet at height 50000 the loop returns 50.0 when it meets
    the breakpoints in the order of the literal and 0.0 when it meets the
    breakpoint at 100000 first. *)
Theorem GetReward_depends_on_the_iteration_order :
  GetReward ZetherNetwork 50000 50%float
  ∧ GetReward ZetherNetwork 50000 0%float
  ∧ 0%float ≠ 50%float.
Proof.
  split; [|split].
  - exists ZetherRewards_literal. split; [apply mainnet_in_order|reflexivity].
  - exists mainnet_rotated. split; [apply mainnet_rotated_order|reflexivity].
  - apply zero_is_not_50.
Qed.

(** C4, as stated, fails: [GetReward] does not look at the sign of the
    height; at height -1 it returns the reward 0.0 on mainnet. *)
Lemma GetReward_negative_height_counterexample :
  GetReward ZetherNetwork (-1) 0%float.
Proof.
  exists ZetherRewards_literal. split; [apply mainnet_in_order|reflexivity].
Qed.

(** C4, amended.  The check of the height is in [SimulateUnlock]: for a
    negative height it ends in [log.Fatalf("Invalid block height: %d")] and
    computes no reward.  [GetReward] itself returns a reward for a negative
    height, and that reward is 0.0 when no breakpoint has a negative
    height. *)
Theorem negative_height_is_fatal_in_SimulateUnlock (config : NetworkConfig) (h : Z) :
  h < 0 →
  (∀ out, SimulateUnlock config h out ↔ out = Fatalf "Invalid block height: %d" h)
  ∧ (∃ reward, GetReward config h reward)
  ∧ ((∀ k r, BlockReward config !! k = Some r → 0 ≤ k) →
     ∀ reward, GetReward config h reward → reward = 0%float).
Proof.
  intros Hneg. split; [|split].
  - intros out. unfold SimulateUnlock.
    destruct (Z.ltb_spec h 0) as [_|Hge]; [done|lia].
  - apply GetReward_total.
  - intros Hkeys reward (entries & Hperm & <-).
    apply range_body_below. intros k r Hin.
    unfold range_order in Hperm. rewrite Hperm in Hin.
    apply elem_of_map_to_list in Hin. specialize (Hkeys _ _ Hin). lia.
Qed.

Lemma negative_height_is_fatal_in_SimulateUnlock_witness :
  (∀ out, SimulateUnlock ZetherNetwork (-1) out
          ↔ out = Fatalf "Invalid block height: %d" (-1))
  ∧ (∃ reward, GetReward ZetherNetwork (-1) reward)
  ∧ ((∀ k r, BlockReward ZetherNetwork !! k = Some r → 0 ≤ k) →
     ∀ reward, GetReward ZetherNetwork (-1) reward → reward = 0%float).
Proof.
  apply (negative_height_is_fatal_in_SimulateUnlock ZetherNetwork (-1)). lia.
Defined.

(** C5.  On the mainnet schedule the loop returns 50.0, 25.0, 6.25 and 6.25
    at heights 50000, 150000, 300000 and 1000000 when it meets the
    breakpoints in the order of the literal.  In other orders of the same
    map it returns 0.0 at 50000 and at 150000, and 50.0 at 300000 and at
    1000000. *)
Theorem GetReward_mainnet_values :
  (GetReward ZetherNetwork 50000 50%float
   ∧ GetReward ZetherNetwork 150000 25%float
   ∧ GetReward ZetherNetwork 300000 6.25%float
   ∧ GetReward ZetherNetwork 1000000 6.25%float)
  ∧ (GetReward ZetherNetwork 50000 0%float
     ∧ GetReward ZetherNetwork 150000 0%float
     ∧ GetReward ZetherNetwork 300000 50%float
     ∧ GetReward ZetherNetwork 1000000 50%float)
  ∧ (0%float ≠ 50%float ∧ 0%float ≠ 25%float ∧ 50%float ≠ 6.25%float).
Proof.
  split; [|split].
  - repeat split; exists ZetherRewards_literal;
      (split; [apply mainnet_in_order|reflexivity]).
  - split; [|split; [|split]].
    + exists mainnet_rotated. split; [apply mainnet_rotated_order|reflexivity].
    + exists mainnet_rotated_twice.
      split; [apply mainnet_rotated_twice_order|reflexivity].
    + exists mainnet_rotated. split; [apply mainnet_rotated_order|reflexivity].
    + exists mainnet_rotated. split; [apply mainnet_rotated_order|reflexivity].
  - split; [apply zero_is_not_50|]. split; [apply zero_is_not_25|apply fifty_is_not_6_25].
Qed.

End PayoutsFacts.

(* ===================================================================== *)
(** ** Reading back what was written as JSON *)
(* ===================================================================== *)

Module JsonFacts.

Import Json Storage.

(** *** String literals *)

(** Case analysis on the eight bits of a character. *)
Ltac by_bits c := destruct c as [[] [] [] [] [] [] [] []].

Lemma escape_fresh (c : ascii) (X : list ascii) :
  (code c <? 128)%N = true →
  read_string Fresh (escape c ++ X) = emit [c] (read_string Fresh X).
Proof. by_bits c; intros H; try discriminate H; reflexivity. Qed.

Lemma escape_high (c : ascii) : (code c <? 128)%N = false → escape c = [c].
Proof. by_bits c; intros H; try discriminate H; reflexivity. Qed.

Lemma read_high (c : ascii) (t : list ascii) :
  (code c <? 128)%N = false →
  read_string Fresh (c :: t)
  = match rune_len (c :: t) with
    | O => emit replacement (read_string Fresh t)
    | S n => emit [c] (read_string (copy n) t)
    end.
Proof. by_bits c; intros H; try discriminate H; reflexivity. Qed.

Lemma between_high (lo hi : N) (c : ascii) :
  (128 ≤ lo)%N → between lo hi c = true → (code c <? 128)%N = false.
Proof.
  unfold between. intros Hlo [Hl _]%andb_prop.
  apply N.leb_le in Hl. apply N.ltb_ge. lia.
Qed.

Lemma continuation_high (c : ascii) :
  continuation c = true → (code c <? 128)%N = false.
Proof. by apply between_high. Qed.

Lemma second_byte_high (c0 c1 : ascii) :
  second_byte c0 c1 = true → (code c1 <? 128)%N = false.
Proof.
  unfold second_byte, continuation.
  repeat match goal with |- context [if ?b then _ else _] => destruct b end;
    by apply between_high.
Qed.

Lemma rune_len_escaped (c : ascii) (t Y : list ascii) (n : nat) :
  (code c <? 128)%N = false →
  rune_len (c :: t) = S n →
  rune_len (c :: flat_map escape t ++ Y) = S n.
Proof.
  intros Hc. unfold rune_len. rewrite Hc.
  destruct (between 194 223 c).
  { destruct t as [|c1 t]; [done|].
    destruct (continuation c1) eqn:H1; [|done].
    cbn [flat_map]. rewrite (escape_high c1) by by apply continuation_high.
    cbn [app]. by rewrite H1. }
  destruct (between 224 239 c).
  { destruct t as [|c1 [|c2 t]]; [done|done|].
    destruct (second_byte c c1) eqn:H1; [|done].
    destruct (continuation c2) eqn:H2; [|done].
    cbn [flat_map].
    rewrite (escape_high c1) by by apply (second_byte_high c).
    rewrite (escape_high c2) by by apply continuation_high.
    cbn [app]. by rewrite H1, H2. }
  destruct (between 240 244 c); [|done].
  destruct t as [|c1 [|c2 [|c3 t]]]; [done|done|done|].
  destruct (second_byte c c1) eqn:H1; [|done].
  destruct (continuation c2) eqn:H2; [|done].
  destruct (continuation c3) eqn:H3; [|done].
  cbn [flat_map].
  rewrite (escape_high c1) by by apply (second_byte_high c).
  rewrite (escape_high c2) by by apply continuation_high.
  rewrite (escape_high c3) by by apply continuation_high.
  cbn [app]. by rewrite H1, H2, H3.
Qed.

Lemma rune_len_ascii (c : ascii) (t : list ascii) :
  (code c <? 128)%N = true → rune_len (c :: t) = 1%nat.
Proof. intros Hc. unfold rune_len. by rewrite Hc. Qed.

(** Reading back an escaped string. *)
Lemma read_string_escaped (s : list ascii) :
  ∀ due X,
    utf8_valid_from due s = true →
    read_string (copy due) (flat_map escape s ++ "034"%char :: X) = Some (s, X).
Proof.
  induction s as [|c t IH]; intros due X Hvalid.
  - destruct due; [reflexivity|discriminate Hvalid].
  - cbn [flat_map]. rewrite <- app_assoc.
    destruct due as [|due]; cbn [utf8_valid_from copy] in *.
    + destruct (code c <? 128)%N eqn:Hc.
      * rewrite (rune_len_ascii c t Hc) in Hvalid.
        rewrite (escape_fresh c _ Hc).
        change Fresh with (copy 0). rewrite (IH 0%nat X Hvalid). reflexivity.
      * rewrite (escape_high c Hc). cbn [app]. rewrite (read_high c _ Hc).
        destruct (rune_len (c :: t)) as [|n] eqn:Hlen; [discriminate Hvalid|].
        rewrite (rune_len_escaped c t _ n Hc Hlen), (IH n X Hvalid). reflexivity.
    + apply andb_prop in Hvalid as [Hcont Hvalid].
      rewrite (escape_high c) by by apply continuation_high.
      cbn [app read_string]. rewrite (IH due X Hvalid). reflexivity.
Qed.

(** *** Decimal integers *)

Lemma uint_digits (d : Decimal.uint) :
  Forall (λ c, is_digit c = true) (list_ascii_of_string (NilEmpty.string_of_uint d)).
Proof. induction d; cbn; constructor; done. Qed.

Lemma nzhead_head (d d' : Decimal.uint) : Decimal.nzhead d ≠ Decimal.D0 d'.
Proof. induction d; cbn; done. Qed.

Lemma to_uint_normal (p : positive) : Decimal.unorm (Pos.to_uint p) = Pos.to_uint p.
Proof.
  rewrite <- (DecimalPos.Unsigned.to_of (Pos.to_uint p)).
  by rewrite DecimalPos.Unsigned.of_to.
Qed.

(** The decimal form of a positive number: a digit from 1 to 9, then digits. *)
Lemma to_uint_chars (p : positive) :
  ∃ c t, list_ascii_of_string (NilZero.string_of_uint (Pos.to_uint p)) = c :: t
         ∧ is_digit c = true ∧ is_char c "0" = false
         ∧ Forall (λ c, is_digit c = true) t.
Proof.
  pose proof (to_uint_normal p) as Hnorm.
  pose proof (DecimalPos.Unsigned.to_uint_nonzero p) as Hnz.
  pose proof (uint_digits (Pos.to_uint p)) as Hdigits.
  destruct (Pos.to_uint p) as [|d|d|d|d|d|d|d|d|d|d] eqn:Hp;
    [by destruct (DecimalPos.Unsigned.to_uint_nonnil p)|..];
    try (cbn in *; eexists _, _; split; [reflexivity|];
         apply Forall_cons in Hdigits as [_ Hdigits]; by repeat split).
  exfalso. rewrite unorm_D0 in Hnorm. unfold Decimal.unorm in Hnorm.
  destruct (Decimal.nzhead d) as [|u|u|u|u|u|u|u|u|u|u] eqn:Hd; try discriminate Hnorm.
  - apply Hnz. by rewrite <- Hnorm.
  - by destruct (nzhead_head d u).
Qed.

Lemma decimal_chars (n : Z) :
  ∃ c t, decimal n = c :: t
         ∧ (is_digit c || is_char c "-") = true
         ∧ Forall (λ c, number_char c = true) (c :: t)
         ∧ number_literal (c :: t) = true.
Proof.
  assert (Hnum : ∀ t, Forall (λ c, is_digit c = true) t →
                      Forall (λ c, number_char c = true) t).
  { intros t Ht. apply (Forall_impl _ _ _ Ht).
    intros c Hc. unfold number_char. by rewrite Hc. }
  assert (Hskip : ∀ t, Forall (λ c, is_digit c = true) t → skip_digits t = []).
  { induction 1 as [|c t Hc _ IH]; [done|]. cbn. by rewrite Hc. }
  unfold decimal. destruct n as [|p|p]; cbn [Z.to_int NilZero.string_of_int].
  - eexists _, _. split; [reflexivity|]. split; [done|]. split; [|done].
    by repeat constructor.
  - destruct (to_uint_chars p) as (c & t & -> & Hc & H0 & Ht).
    exists c, t. split; [done|]. split; [by rewrite Hc|]. split.
    + apply Hnum. by constructor.
    + unfold number_literal.
      assert (is_char c "-" = false) as -> by (by_bits c; done).
      by rewrite H0, Hc, (Hskip t Ht).
  - destruct (to_uint_chars p) as (c & t & Heq & Hc & H0 & Ht).
    exists "-"%char, (c :: t). cbn [list_ascii_of_string]. rewrite Heq.
    split; [done|]. split; [done|]. split.
    + constructor; [done|]. apply Hnum. by constructor.
    + unfold number_literal. cbn [is_char Ascii.eqb Bool.eqb].
      by rewrite H0, Hc, (Hskip t Ht).
Qed.

Lemma ParseInt_decimal (n : Z) : int64 n → ParseInt (decimal n) = Some n.
Proof.
  intros [Hlo Hhi]. unfold ParseInt, decimal.
  rewrite string_of_list_ascii_of_string, NilZero.isi.
  - rewrite DecimalZ.of_to.
    destruct (Z.leb_spec (- 2 ^ 63) n); [|lia].
    destruct (Z.ltb_spec n (2 ^ 63)); [done|lia].
  - destruct n; cbn; [done| |done].
    intros [= H]. by destruct (DecimalPos.Unsigned.to_uint_nonnil p).
  - destruct n; cbn; [done|done|].
    intros [= H]. by destruct (DecimalPos.Unsigned.to_uint_nonnil p).
Qed.

Lemma span_number_all (l : list ascii) (c : ascii) (rest : list ascii) :
  Forall (λ c, number_char c = true) l → number_char c = false →
  span_number (l ++ c :: rest) = (l, c :: rest).
Proof.
  intros Hl Hc. induction Hl as [|d l Hd _ IH]; cbn.
  - by rewrite Hc.
  - by rewrite Hd, IH.
Qed.

(** *** Values *)

Lemma parse_value_quote (fuel : nat) (t : list ascii) :
  parse_value (S fuel) ("034"%char :: t)
  = match read_string Fresh t with
    | Some (str, rest) => Some (JString str, rest)
    | None => None
    end.
Proof. reflexivity. Qed.

Lemma parse_value_string (fuel : nat) (s X : list ascii) :
  utf8_valid s = true →
  parse_value (S fuel) (quoted s ++ X) = Some (JString s, X).
Proof.
  intros Hs. unfold quoted. cbn [app]. rewrite <- app_assoc. cbn [app].
  rewrite parse_value_quote. change Fresh with (copy 0).
  by rewrite (read_string_escaped s 0%nat X Hs).
Qed.

Lemma parse_value_number_start (fuel : nat) (c : ascii) (t : list ascii) :
  (is_digit c || is_char c "-") = true →
  parse_value (S fuel) (c :: t)
  = (let (lit, rest) := span_number (c :: t) in
     if number_literal lit then Some (JNumber lit, rest) else None).
Proof. by_bits c; intros H; try discriminate H; reflexivity. Qed.

Lemma parse_value_number (fuel : nat) (n : Z) (c : ascii) (X : list ascii) :
  number_char c = false →
  parse_value (S fuel) (decimal n ++ c :: X) = Some (JNumber (decimal n), c :: X).
Proof.
  intros Hc. destruct (decimal_chars n) as (c0 & t & -> & Hstart & Hall & Hlit).
  cbn [app]. rewrite (parse_value_number_start fuel c0 _ Hstart).
  change (c0 :: t ++ c :: X) with ((c0 :: t) ++ c :: X).
  by rewrite (span_number_all _ c X Hall Hc), Hlit.
Qed.

Lemma parse_member (fuel : nat) (key t2 t4 : list ascii) (v : json) (sep : ascii) :
  utf8_valid key = true →
  parse_value fuel t2 = Some (v, sep :: t4) →
  is_space sep = false →
  parse_members (S fuel) (quoted key ++ ":"%char :: t2)
  = if is_char sep "}" then Some ([(key, v)], t4)
    else if is_char sep "," then
      match parse_members fuel (skip_space t4) with
      | Some (ms, rest) => Some ((key, v) :: ms, rest)
      | None => None
      end
    else None.
Proof.
  intros Hkey Hv Hsep. unfold quoted. cbn [app]. rewrite <- app_assoc. cbn [app].
  cbn [parse_members]. cbn [is_char Ascii.eqb Bool.eqb].
  change Fresh with (copy 0). rewrite (read_string_escaped key 0%nat _ Hkey).
  cbn [skip_space]. change (is_space ":") with false.
  change (is_char ":" ":") with true. cbv iota.
  rewrite Hv. cbn [skip_space]. by rewrite Hsep.
Qed.

Lemma parse_value_members (fuel : nat) (key t : list ascii) :
  parse_value (S fuel) ("{"%char :: quoted key ++ t)
  = match parse_members fuel (quoted key ++ t) with
    | Some (ms, rest) => Some (JObject ms, rest)
    | None => None
    end.
Proof. reflexivity. Qed.

Lemma skip_space_quoted (key t : list ascii) :
  skip_space (quoted key ++ t) = quoted key ++ t.
Proof. reflexivity. Qed.

(** The text written for a payment is read as an object of three members. *)
Lemma parse_json_of_PendingPayment (p : PendingPayment) :
  utf8_valid (chars (Address p)) = true →
  parse (chars (json_of_PendingPayment p))
  = Some (JObject [ (chars "Address", JString (chars (Address p)));
                    (chars "Amount", JNumber (decimal (Amount p)));
                    (chars "Timestamp", JNumber (decimal (Timestamp p))) ]).
Proof.
  intros Haddr. unfold json_of_PendingPayment, chars at 1.
  rewrite list_ascii_of_string_of_list_ascii. unfold parse.
  match goal with |- context [parse_value (S (length ?text)) _] =>
    assert (Hfuel : ∃ fuel, length text = S (S (S (S fuel))))
  end.
  { cbn [length]. rewrite length_app. unfold quoted at 1. cbn [length app].
    rewrite length_app. cbn [length]. eexists. rewrite <- !plus_n_Sm. reflexivity. }
  destruct Hfuel as [fuel ->].
  rewrite parse_value_members.
  erewrite (parse_member _ _ _ _ (JString (chars (Address p))) ","%char);
    [|reflexivity|by apply parse_value_string|reflexivity].
  change (is_char "," "}") with false. change (is_char "," ",") with true. cbv iota.
  rewrite skip_space_quoted.
  erewrite (parse_member _ _ _ _ (JNumber (decimal (Amount p))) ","%char);
    [|reflexivity|by apply parse_value_number|reflexivity].
  change (is_char "," "}") with false. change (is_char "," ",") with true. cbv iota.
  rewrite skip_space_quoted.
  erewrite (parse_member _ _ _ [] (JNumber (decimal (Timestamp p))) "}"%char);
    [|reflexivity|by apply parse_value_number|reflexivity].
  reflexivity.
Qed.

Lemma json_Unmarshal_json_of_PendingPayment (p : PendingPayment) :
  utf8_valid (chars (Address p)) = true → int64 (Amount p) → int64 (Timestamp p) →
  json_Unmarshal (json_of_PendingPayment p) = Ok p.
Proof.
  intros Haddr Hamount Htime. unfold json_Unmarshal.
  fold (chars (json_of_PendingPayment p)).
  rewrite (parse_json_of_PendingPayment p Haddr).
  cbn [fold_left]. unfold store_member at 3.
  change (names (chars "Address") "Address") with true. cbv iota.
  cbn [store_string Address Amount Timestamp].
  unfold store_member at 2.
  change (names (chars "Amount") "Address") with false.
  change (names (chars "Amount") "Amount") with true. cbv iota.
  cbn [store_int64 Address Amount Timestamp]. rewrite (ParseInt_decimal _ Hamount).
  unfold store_member.
  change (names (chars "Timestamp") "Address") with false.
  change (names (chars "Timestamp") "Amount") with false.
  change (names (chars "Timestamp") "Timestamp") with true. cbv iota.
  cbn [store_int64 Address Amount Timestamp]. rewrite (ParseInt_decimal _ Htime).
  unfold chars. rewrite string_of_list_ascii_of_string. by destruct p.
Qed.

(** *** What a string literal can stand for *)

Lemma code_chr (n : N) : (n < 256)%N → code (chr n) = n.
Proof. apply N_ascii_embedding. Qed.

Lemma below_255_chr (n : N) : (n < 255)%N → (code (chr n) < 255)%N.
Proof. intros Hn. rewrite code_chr; lia. Qed.

Lemma encode_rune_below_255 (r : N) : (r < 1114112)%N → below_255 (encode_rune r).
Proof.
  intros Hr. unfold encode_rune, below_255.
  assert (Hdiv : ∀ d q, (0 < d)%N → (r < d * q)%N → (r / d < q)%N).
  { intros d q Hd Hq. apply N.Div0.div_lt_upper_bound; lia. }
  assert (Hmod : ∀ a, (a mod 64 < 64)%N) by (intros a; apply N.mod_lt; lia).
  pose proof (Hmod r). pose proof (Hmod (r / 64)%N). pose proof (Hmod (r / 4096)%N).
  destruct (N.ltb_spec r 128); [|destruct (N.ltb_spec r 2048);
                                  [|destruct (N.ltb_spec r 65536)]].
  - repeat (constructor; [apply below_255_chr; lia|]). constructor.
  - pose proof (Hdiv 64 32)%N.
    repeat (constructor; [apply below_255_chr; lia|]). constructor.
  - pose proof (Hdiv 4096 16)%N.
    repeat (constructor; [apply below_255_chr; lia|]). constructor.
  - pose proof (Hdiv 262144 5)%N.
    repeat (constructor; [apply below_255_chr; lia|]). constructor.
Qed.

Lemma hex_digit_bound (c : ascii) (n : N) : hex_digit c = Some n → (n < 16)%N.
Proof.
  unfold hex_digit, between.
  repeat match goal with |- context [if ?b then _ else _] => destruct b eqn:? end;
    intros [= <-]; try done;
    repeat match goal with
           | H : _ && _ = true |- _ => apply andb_prop in H as [? ?]
           | H : (_ <=? _)%N = true |- _ => apply N.leb_le in H
           end; lia.
Qed.

Lemma hex4_bound (s : list ascii) (n : N) : hex4 s = Some n → (n < 65536)%N.
Proof.
  destruct s as [|a [|b [|c [|d s]]]]; try done. cbn [hex4].
  destruct (hex_digit a) as [x|] eqn:Ha; [|done].
  destruct (hex_digit b) as [y|] eqn:Hb; [|done].
  destruct (hex_digit c) as [z|] eqn:Hc; [|done].
  destruct (hex_digit d) as [w|] eqn:Hd; [|done].
  apply hex_digit_bound in Ha, Hb, Hc, Hd. intros [= <-]. lia.
Qed.

Lemma escape_at_below_255 (t out : list ascii) (n : nat) :
  escape_at t = Some (out, n) → below_255 out.
Proof.
  destruct t as [|c u]; [done|]. unfold escape_at.
  destruct (is_char c "034" || is_char c "\" || is_char c "/") eqn:Hself.
  { intros [= <- <-]. constructor; [|constructor].
    apply orb_prop in Hself as [[H|H]%orb_prop|H];
      apply Ascii.eqb_eq in H; by subst c. }
  destruct (is_char c "b"); [intros [= <- <-]; by repeat constructor|].
  destruct (is_char c "f"); [intros [= <- <-]; by repeat constructor|].
  destruct (is_char c "n"); [intros [= <- <-]; by repeat constructor|].
  destruct (is_char c "r"); [intros [= <- <-]; by repeat constructor|].
  destruct (is_char c "t"); [intros [= <- <-]; by repeat constructor|].
  destruct (is_char c "u"); [|done].
  destruct (hex4 u) as [rr|] eqn:Hrr; [|done]. apply hex4_bound in Hrr.
  assert (Hrep : below_255 replacement) by (by apply encode_rune_below_255).
  destruct ((55296 <=? rr) && (rr <? 57344))%N eqn:Hsur.
  - destruct (skipn 4 u) as [|b [|c' v]]; try (by intros [= <- <-]).
    destruct (if is_char b "\" && is_char c' "u" then hex4 v else None) as [rr1|] eqn:Hrr1;
      [|by intros [= <- <-]].
    destruct ((rr <? 56320) && (56320 <=? rr1) && (rr1 <? 57344))%N eqn:Hpair;
      [|by intros [= <- <-]].
    intros [= <- <-]. apply encode_rune_below_255.
    apply andb_prop in Hpair as [[H1 H2]%andb_prop H3].
    apply N.ltb_lt in H1, H3. lia.
  - intros [= <- <-]. apply encode_rune_below_255. lia.
Qed.

(** The bytes after the first of a character of [n + 1] bytes. *)
Lemma rune_len_tail (c : ascii) (t : list ascii) (n : nat) :
  (code c <? 128)%N = false → rune_len (c :: t) = S n →
  (code c < 255)%N ∧ Forall (λ b, (code b < 255)%N) (take n t) ∧ (n ≤ length t)%nat.
Proof.
  assert (Hb : ∀ lo hi b, (hi < 255)%N → between lo hi b = true → (code b < 255)%N).
  { intros lo hi b Hhi [_ H]%andb_prop. apply N.leb_le in H. lia. }
  assert (Hs : ∀ b, second_byte c b = true → (code b < 255)%N).
  { intros b. unfold second_byte, continuation.
    repeat match goal with |- context [if ?x then _ else _] => destruct x end;
      by apply Hb. }
  intros Hc. unfold rune_len. rewrite Hc.
  destruct (between 194 223 c) eqn:H2.
  { destruct t as [|c1 t]; [done|]. destruct (continuation c1) eqn:H1; [|done].
    intros [= <-]. split; [by apply (Hb 194 223)%N|]. split; [|cbn; lia].
    cbn. constructor; [by apply (Hb 128 191)%N|constructor]. }
  destruct (between 224 239 c) eqn:H3.
  { destruct t as [|c1 [|c2 t]]; [done|done|].
    destruct (second_byte c c1) eqn:H1; [|done].
    destruct (continuation c2) eqn:H2'; [|done].
    intros [= <-]. split; [by apply (Hb 224 239)%N|]. split; [|cbn; lia].
    cbn. repeat constructor; [by apply Hs|by apply (Hb 128 191)%N]. }
  destruct (between 240 244 c) eqn:H4; [|done].
  destruct t as [|c1 [|c2 [|c3 t]]]; [done|done|done|].
  destruct (second_byte c c1) eqn:H1; [|done].
  destruct (continuation c2) eqn:H2'; [|done].
  destruct (continuation c3) eqn:H3'; [|done].
  intros [= <-]. split; [by apply (Hb 240 244)%N|]. split; [|cbn; lia].
  cbn. repeat constructor; [by apply Hs|by apply (Hb 128 191)%N|by apply (Hb 128 191)%N].
Qed.

Lemma emit_below_255 (out : list ascii) (r : option (list ascii * list ascii)) s rest :
  emit out r = Some (s, rest) →
  ∃ s', r = Some (s', rest) ∧ s = out ++ s'.
Proof. destruct r as [[s' rest']|]; [|done]. intros [= <- <-]. by exists s'. Qed.

Lemma read_string_below_255 (s : list ascii) :
  ∀ m out rest, mode_ok m s → read_string m s = Some (out, rest) → below_255 out.
Proof.
  induction s as [|c t IH]; intros m out rest Hm; [done|].
  assert (Hfresh :
    (if is_char c "034" then Some ([], t)
     else if is_char c "\" then
       match escape_at t with
       | Some (out, n) => emit out (read_string (pass n) t)
       | None => None
       end
     else if (code c <? 32)%N then None
     else if (code c <? 128)%N then emit [c] (read_string Fresh t)
     else match rune_len (c :: t) with
          | O => emit replacement (read_string Fresh t)
          | S n => emit [c] (read_string (copy n) t)
          end) = Some (out, rest) → below_255 out).
  { destruct (is_char c "034"); [intros [= <- <-]; constructor|].
    destruct (is_char c "\").
    { destruct (escape_at t) as [[esc n]|] eqn:Hesc; [|done].
      intros (s' & Hs' & ->)%emit_below_255. apply Forall_app. split.
      - by apply (escape_at_below_255 t esc n).
      - apply (IH (pass n) s' rest); [by destruct n|done]. }
    destruct (code c <? 32)%N; [done|].
    destruct (code c <? 128)%N eqn:Hc.
    { intros (s' & Hs' & ->)%emit_below_255. constructor.
      - apply N.ltb_lt in Hc. lia.
      - by apply (IH Fresh s' rest). }
    destruct (rune_len (c :: t)) as [|n] eqn:Hlen.
    { intros (s' & Hs' & ->)%emit_below_255. apply Forall_app. split.
      - by apply encode_rune_below_255.
      - by apply (IH Fresh s' rest). }
    destruct (rune_len_tail c t n Hc Hlen) as (Hlead & Htail & _).
    intros (s' & Hs' & ->)%emit_below_255. constructor; [done|].
    apply (IH (copy n) s' rest); [by destruct n|done]. }
  destruct m as [|[|n]|[|n]]; cbn [read_string]; try exact Hfresh.
  - intros (s' & Hs' & ->)%emit_below_255. cbn in Hm.
    apply Forall_cons in Hm as [Hc Hm]. constructor; [done|].
    apply (IH (copy n) s' rest); [by destruct n|done].
  - apply IH. by destruct n.
Qed.

Lemma parse_value_below_255 (fuel : nat) (s rest : list ascii) (v : json) :
  parse_value fuel s = Some (v, rest) → string_below_255 v.
Proof.
  destruct fuel as [|fuel]; [done|]. cbn [parse_value].
  destruct (skip_space s) as [|c t]; [done|].
  destruct (is_char c "{").
  { destruct (skip_space t) as [|c' t']; [done|].
    destruct (is_char c' "}"); [by intros [= <- <-]|].
    destruct (parse_members fuel (c' :: t')) as [[ms r]|]; [by intros [= <- <-]|done]. }
  destruct (is_char c "[").
  { destruct (skip_space t) as [|c' t']; [done|].
    destruct (is_char c' "]"); [by intros [= <- <-]|].
    destruct (parse_items fuel (c' :: t')) as [[vs r]|]; [by intros [= <- <-]|done]. }
  destruct (is_char c "034").
  { destruct (read_string Fresh t) as [[str r]|] eqn:Hstr; [|done].
    intros [= <- <-]. by apply (read_string_below_255 t Fresh str r). }
  destruct (is_char c "t").
  { destruct (strip_prefix _ t); [by intros [= <- <-]|done]. }
  destruct (is_char c "f").
  { destruct (strip_prefix _ t); [by intros [= <- <-]|done]. }
  destruct (is_char c "n").
  { destruct (strip_prefix _ t); [by intros [= <- <-]|done]. }
  destruct (span_number (c :: t)) as [lit r].
  destruct (number_literal lit); [by intros [= <- <-]|done].
Qed.

Lemma parse_members_below_255 (fuel : nat) :
  ∀ s ms rest, parse_members fuel s = Some (ms, rest) →
               Forall (λ member, string_below_255 member.2) ms.
Proof.
  induction fuel as [|fuel IH]; intros s ms rest; [done|]. cbn [parse_members].
  destruct s as [|q t]; [done|]. destruct (is_char q "034"); [|done].
  destruct (read_string Fresh t) as [[key t1]|]; [|done].
  destruct (skip_space t1) as [|colon t2]; [done|]. destruct (is_char colon ":"); [|done].
  destruct (parse_value fuel t2) as [[v t3]|] eqn:Hv; [|done].
  apply parse_value_below_255 in Hv.
  destruct (skip_space t3) as [|sep t4]; [done|].
  destruct (is_char sep "}"); [intros [= <- <-]; by repeat constructor|].
  destruct (is_char sep ","); [|done].
  destruct (parse_members fuel (skip_space t4)) as [[ms' rest']|] eqn:Hms; [|done].
  intros [= <- <-]. constructor; [done|]. by apply (IH _ _ _ Hms).
Qed.

Lemma store_member_below_255 (st : decoding) (member : list ascii * json) :
  string_below_255 member.2 →
  below_255 (chars (Address st.1)) →
  below_255 (chars (Address (store_member st member).1)).
Proof.
  destruct st as [payment saved], member as [key v]. cbn [fst snd]. intros Hv Hp.
  unfold store_member.
  destruct (names key "Address").
  { unfold store_string.
    destruct v; cbn [fst Address]; try done.
    unfold chars. by rewrite list_ascii_of_string_of_list_ascii. }
  destruct (names key "Amount"); [by destruct (store_int64 _ _ _ _)|].
  destruct (names key "Timestamp"); [by destruct (store_int64 _ _ _ _)|done].
Qed.

Lemma parse_value_members_below_255 (fuel : nat) (s rest : list ascii)
    (ms : list (list ascii * json)) :
  parse_value fuel s = Some (JObject ms, rest) →
  Forall (λ member, string_below_255 member.2) ms.
Proof.
  destruct fuel as [|fuel]; [done|]. cbn [parse_value].
  destruct (skip_space s) as [|c t]; [done|].
  destruct (is_char c "{").
  { destruct (skip_space t) as [|c' t']; [done|].
    destruct (is_char c' "}"); [intros [= <- <-]; constructor|].
    destruct (parse_members fuel (c' :: t')) as [[ms' r]|] eqn:Hms; [|done].
    intros [= <- <-]. by apply (parse_members_below_255 _ _ _ _ Hms). }
  destruct (is_char c "[").
  { destruct (skip_space t) as [|c' t']; [done|].
    destruct (is_char c' "]"); [done|].
    by destruct (parse_items fuel (c' :: t')) as [[vs r]|]. }
  destruct (is_char c "034"); [by destruct (read_string Fresh t) as [[str r]|]|].
  destruct (is_char c "t"); [by destruct (strip_prefix _ t)|].
  destruct (is_char c "f"); [by destruct (strip_prefix _ t)|].
  destruct (is_char c "n"); [by destruct (strip_prefix _ t)|].
  destruct (span_number (c :: t)) as [lit r]. by destruct (number_literal lit).
Qed.

Lemma fold_store_member_below_255 (ms : list (list ascii * json)) :
  Forall (λ member, string_below_255 member.2) ms →
  ∀ st, below_255 (chars (Address st.1)) →
        below_255 (chars (Address (fold_left store_member ms st).1)).
Proof.
  induction 1 as [|member ms Hmember _ IH]; intros st Hst; [done|].
  cbn [fold_left]. apply IH. by apply store_member_below_255.
Qed.

(** Whatever the text, the address it decodes to has no byte 255. *)
Lemma json_Unmarshal_below_255 (val : string) (p : PendingPayment) :
  json_Unmarshal val = Ok p → below_255 (chars (Address p)).
Proof.
  unfold json_Unmarshal, parse.
  destruct (parse_value _ _) as [[v rest]|] eqn:Hv; [|done].
  destruct (at_end (skip_space rest)); [|done].
  destruct v as [| | | | |ms]; try done; [intros [= <-]; constructor|].
  apply parse_value_members_below_255 in Hv.
  pose proof (fold_store_member_below_255 ms Hv
                ({| Address := EmptyString; Amount := 0; Timestamp := 0 |}, None)
                (Forall_nil_2 _)) as Hfold.
  destruct (fold_left store_member ms _) as [payment [err|]]; [done|].
  by intros [= <-].
Qed.

End JsonFacts.

(* ===================================================================== *)
(** ** The payout lock, the deletions and the ledger *)
(* ===================================================================== *)

Module StorageFacts.

Import Json Storage JsonFacts.

(** *** The client *)

Lemma client_Get_present (r : RedisClient) (key val : string) :
  fault r (GET key) = None → db r !! key = Some (RString val) →
  client_Get r key = Ok val.
Proof. intros Hf Hk. unfold client_Get. by rewrite Hf, Hk. Qed.

Lemma client_Get_absent (r : RedisClient) (key : string) :
  fault r (GET key) = None → db r !! key = None →
  client_Get r key = Err redis_Nil.
Proof. intros Hf Hk. unfold client_Get. by rewrite Hf, Hk. Qed.

Lemma client_Del_reached (r : RedisClient) (key : string) :
  fault r (DEL key) = None →
  client_Del r key = (None, with_db r (delete key (db r))).
Proof. intros Hf. unfold client_Del. by rewrite Hf. Qed.

Lemma client_Del_success (r r' : RedisClient) (key : string) :
  client_Del r key = (None, r') → r' = with_db r (delete key (db r)).
Proof. unfold client_Del. destruct (fault r (DEL key)); congruence. Qed.

(** [*] matches whatever is left. *)
Lemma glob_match_star (s : list ascii) : glob_match ["*"%char] s = true.
Proof.
  induction s as [|c s IH]; [reflexivity|].
  cbn in *. by rewrite IH.
Qed.

Lemma pending_payment_key (id : string) :
  glob_match (list_ascii_of_string "pending_payment:*")
             (list_ascii_of_string ("pending_payment:" ++ id)) = true.
Proof. apply (glob_match_star (list_ascii_of_string id)). Qed.

(** *** The payout lock *)

Lemma IsPayoutsLocked_absent (r : RedisClient) :
  fault r (GET "payouts_locked") = None → db r !! "payouts_locked" = None →
  IsPayoutsLocked r = Ok false.
Proof.
  intros Hf Hk. unfold IsPayoutsLocked. by rewrite (client_Get_absent r _ Hf Hk).
Qed.

Lemma IsPayoutsLocked_present (r : RedisClient) (val : string) :
  fault r (GET "payouts_locked") = None →
  db r !! "payouts_locked" = Some (RString val) →
  IsPayoutsLocked r = Ok (bool_decide (val = "1")).
Proof.
  intros Hf Hk. unfold IsPayoutsLocked. by rewrite (client_Get_present r _ val Hf Hk).
Qed.

(** *** The ledger *)

Lemma GetPendingPayments_loop_Ok (r : RedisClient) (keys : list string) :
  ∀ acc payments,
    GetPendingPayments_loop r keys acc = Ok payments
    ↔ ∃ more, payments = acc ++ more ∧ Forall2 (fetched r) keys more.
Proof.
  induction keys as [|key keys IH]; intros acc payments; cbn [GetPendingPayments_loop].
  - split.
    + intros [= <-]. exists []. by rewrite app_nil_r.
    + intros (more & -> & Hall). apply Forall2_nil_inv_l in Hall as ->.
      by rewrite app_nil_r.
  - destruct (client_Get r key) as [val|err] eqn:Hget.
    + destruct (json_Unmarshal val) as [p|err] eqn:Hdec.
      * rewrite IH. split.
        -- intros (more & -> & Hall). exists (p :: more).
           split; [by rewrite <- app_assoc|]. constructor; [by exists val|done].
        -- intros (more & -> & Hall).
           apply Forall2_cons_inv_l in Hall as (p' & more' & (val' & Hget' & Hdec') & Hall & ->).
           assert (p' = p) as -> by congruence.
           exists more'. by rewrite <- app_assoc.
      * split; [done|]. intros (more & _ & Hall).
        apply Forall2_cons_inv_l in Hall as (p' & more' & (val' & Hget' & Hdec') & _ & _).
        congruence.
    + split; [done|]. intros (more & _ & Hall).
      apply Forall2_cons_inv_l in Hall as (p' & more' & (val' & Hget' & _) & _ & _).
      congruence.
Qed.

Lemma fetch_fails_not_fetched (r : RedisClient) (key : string) (p : PendingPayment) :
  fetch_fails r key → ¬ fetched r key p.
Proof.
  intros [[err Hget]|(val & err & Hget & Hdec)] (val' & Hget' & Hdec'); congruence.
Qed.

Lemma GetPendingPayments_loop_Err (r : RedisClient) (keys : list string) (key : string) :
  key ∈ keys → fetch_fails r key →
  ∀ acc, ∃ err, GetPendingPayments_loop r keys acc = Err err.
Proof.
  intros Hin Hfail acc.
  destruct (GetPendingPayments_loop r keys acc) as [payments|err] eqn:Hloop; [|by eauto].
  apply GetPendingPayments_loop_Ok in Hloop as (more & _ & Hall).
  apply list_elem_of_lookup in Hin as [i Hi].
  destruct (Forall2_lookup_l _ _ _ i key Hall Hi) as (p & _ & Hp).
  by destruct (fetch_fails_not_fetched r key p).
Qed.

(* --------------------------------------------------------------------- *)
(** *** The claims *)
(* --------------------------------------------------------------------- *)

(** C6.  [GetPendingPayments] is fail-fast.  When [KEYS] fails the listing
    fails.  Otherwise, with [keys] the keys of the name space: the listing
    succeeds exactly when every key is fetched and decoded, and it then
    returns the decoded payments in the order of the keys; as soon as one
    key cannot be fetched or decoded the listing is an error and no list. *)
Theorem GetPendingPayments_fail_fast (r : RedisClient) :
  match client_Keys r "pending_payment:*" with
  | Err err => GetPendingPayments r = Err (Errorf "failed to get pending payments" err)
  | Ok keys =>
      (∀ payments, GetPendingPayments r = Ok payments ↔ Forall2 (fetched r) keys payments)
      ∧ (∀ key, key ∈ keys → fetch_fails r key →
                ∃ err, GetPendingPayments r = Err err)
  end.
Proof.
  unfold GetPendingPayments.
  destruct (client_Keys r "pending_payment:*") as [keys|err]; [|done]. split.
  - intros payments. rewrite GetPendingPayments_loop_Ok. split.
    + by intros (more & -> & Hall).
    + intros Hall. by exists payments.
  - intros key Hin Hfail. by apply (GetPendingPayments_loop_Err r keys key).
Qed.

Lemma GetPendingPayments_fail_fast_witness :
  ∃ err, GetPendingPayments broken_ledger = Err err.
Proof.
  pose proof (GetPendingPayments_fail_fast broken_ledger) as Hff.
  destruct (client_Keys broken_ledger "pending_payment:*") as [keys|err] eqn:Hkeys;
    [|vm_compute in Hkeys; discriminate Hkeys].
  destruct Hff as [_ Hfail]. apply (Hfail "pending_payment:0xdef").
  - vm_compute in Hkeys. injection Hkeys as <-.
    apply list_elem_of_further, list_elem_of_here.
  - right. exists "1000 ZTH", json_SyntaxError. split; by vm_compute.
Defined.

(** C7.  With the server reached and no [payouts_locked] key,
    [IsPayoutsLocked] is [false] with no error; after [SET payouts_locked 1]
    it is [true]; after [DEL payouts_locked] it is [false] again.  And
    whenever [GET] fails with an error other than [redis.Nil], the result is
    that error, wrapped, not [false]. *)
Theorem IsPayoutsLocked_round_trip (r : RedisClient) :
  ((∀ c, fault r c = None) → db r !! "payouts_locked" = None →
   let locked := client_Set r "payouts_locked" "1" in
   let cleared := client_Del locked.2 "payouts_locked" in
   IsPayoutsLocked r = Ok false
   ∧ locked.1 = None ∧ IsPayoutsLocked locked.2 = Ok true
   ∧ cleared.1 = None ∧ IsPayoutsLocked cleared.2 = Ok false)
  ∧ (∀ err, client_Get r "payouts_locked" = Err err → errors_Is_Nil err = false →
            IsPayoutsLocked r = Err (Errorf "failed to check payouts lock" err)).
Proof.
  split.
  - intros Hf Hk. cbn zeta. unfold client_Set. rewrite Hf. cbn [fst snd].
    unfold client_Del. cbn [fault with_db]. rewrite Hf. cbn [fst snd].
    split; [by apply IsPayoutsLocked_absent|]. split; [done|]. split; [|split; [done|]].
    + rewrite (IsPayoutsLocked_present _ "1"); [done|apply Hf|].
      cbn [db with_db]. apply lookup_insert_eq.
    + apply IsPayoutsLocked_absent; [apply Hf|].
      cbn [db with_db]. apply lookup_delete_eq.
  - intros err Hget Hnil. unfold IsPayoutsLocked. by rewrite Hget, Hnil.
Qed.

Lemma IsPayoutsLocked_round_trip_witness :
  (let locked := client_Set empty_server "payouts_locked" "1" in
   let cleared := client_Del locked.2 "payouts_locked" in
   IsPayoutsLocked empty_server = Ok false
   ∧ locked.1 = None ∧ IsPayoutsLocked locked.2 = Ok true
   ∧ cleared.1 = None ∧ IsPayoutsLocked cleared.2 = Ok false)
  ∧ IsPayoutsLocked no_server
    = Err (Errorf "failed to check payouts lock"
             (redis_Error "dial tcp 127.0.0.1:6379: connect: connection refused")).
Proof.
  split.
  - apply (proj1 (IsPayoutsLocked_round_trip empty_server)); [done|].
    apply lookup_empty.
  - by apply (proj2 (IsPayoutsLocked_round_trip no_server)).
Defined.

(** Whatever the server holds, no listed payment has a byte 255 in its
    address. *)
Lemma GetPendingPayments_below_255 (r : RedisClient) (payments : list PendingPayment) :
  GetPendingPayments r = Ok payments →
  Forall (λ p, below_255 (chars (Address p))) payments.
Proof.
  unfold GetPendingPayments.
  destruct (client_Keys r "pending_payment:*") as [keys|err]; [|done].
  rewrite GetPendingPayments_loop_Ok. intros (more & -> & Hall). cbn [app].
  induction Hall as [|key p keys more (val & _ & Hdec) _ IH]; constructor; [|done].
  by apply (json_Unmarshal_below_255 val).
Qed.

(** C8, as stated, fails: a Go string holds any bytes, and the decoder reads
    bytes that are not UTF-8 as U+FFFD.  The payment whose address is the
    byte 255, written and listed, is not the one record of the list; and
    whatever is stored, on no server is it the one record of the list. *)
Lemma ledger_round_trip_counterexample :
  ¬ (∀ p id, int64 (Amount p) → int64 (Timestamp p) →
             GetPendingPayments (persist empty_server id p).2 = Ok [p])
  ∧ ¬ (∃ r, GetPendingPayments r = Ok [odd_payment]).
Proof.
  split.
  - intros Hclaim. specialize (Hclaim odd_payment "0xabc").
    assert (Hint : ∀ n, (- 2 ^ 63 <=? n) && (n <? 2 ^ 63) = true → int64 n).
    { intros n [Hlo Hhi]%andb_prop. apply Z.leb_le in Hlo. apply Z.ltb_lt in Hhi.
      by split. }
    specialize (Hclaim (Hint 1000 eq_refl) (Hint 1700000000 eq_refl)).
    vm_compute in Hclaim. discriminate Hclaim.
  - intros [r Hlist]. apply GetPendingPayments_below_255 in Hlist.
    apply Forall_cons in Hlist as [Hodd _]. apply Forall_cons in Hodd as [Hodd _].
    vm_compute in Hodd. discriminate Hodd.
Qed.

(** C8, amended.  A payment whose address is UTF-8 text, written as the JSON
    object with the members ["Address"], ["Amount"] and ["Timestamp"] under
    one key of the [pending_payment:] name space of a server that holds
    nothing else, is listed by [GetPendingPayments] as the one record, equal
    to the original in its three fields. *)
Theorem ledger_round_trip (r : RedisClient) (p : PendingPayment) (id : string) :
  (∀ c, fault r c = None) → db r = ∅ →
  utf8_valid (chars (Address p)) = true →
  int64 (Amount p) → int64 (Timestamp p) →
  GetPendingPayments (persist r id p).2 = Ok [p].
Proof.
  intros Hf Hdb Haddr Hamount Htime.
  unfold persist, client_Set. rewrite Hf. cbn [snd].
  unfold GetPendingPayments, client_Keys. cbn [fault db with_db].
  rewrite Hf, Hdb, insert_empty, map_to_list_singleton.
  cbn [map fst List.filter]. rewrite pending_payment_key. cbn [GetPendingPayments_loop].
  rewrite (client_Get_present _ _ (json_of_PendingPayment p));
    [|apply Hf|cbn [db with_db]; apply lookup_singleton_eq].
  by rewrite (json_Unmarshal_json_of_PendingPayment p Haddr Hamount Htime).
Qed.

Lemma ledger_round_trip_witness :
  GetPendingPayments (persist empty_server "0xabc" sample_payment).2
  = Ok [sample_payment].
Proof.
  apply (ledger_round_trip empty_server sample_payment "0xabc");
    [done|done|reflexivity| |]; split; by vm_compute.
Defined.

(** C9.  With the server reached, [DeleteOldMinerData] and
    [DeleteOldShareData] of an absent key return no error, the first time and
    the second; and after a deletion that returned no error the key is
    absent, whether it was there before or not. *)
Theorem delete_is_idempotent (r : RedisClient) (key : string) :
  (fault r (DEL key) = None → db r !! key = None →
   let once := DeleteOldMinerData r key in
   let twice := DeleteOldMinerData once.2 key in
   let once' := DeleteOldShareData r key in
   let twice' := DeleteOldShareData once'.2 key in
   once.1 = None ∧ twice.1 = None ∧ once'.1 = None ∧ twice'.1 = None)
  ∧ (∀ r', DeleteOldMinerData r key = (None, r') → db r' !! key = None)
  ∧ (∀ r', DeleteOldShareData r key = (None, r') → db r' !! key = None).
Proof.
  split; [|split].
  - intros Hf Hk. cbn zeta.
    unfold DeleteOldMinerData, DeleteOldShareData.
    rewrite (client_Del_reached r key Hf). cbn [fst snd].
    by rewrite (client_Del_reached (with_db r _) key Hf).
  - intros r'. unfold DeleteOldMinerData.
    destruct (client_Del r key) as [[err|] r''] eqn:Hdel; [done|].
    intros [= <-]. apply client_Del_success in Hdel as ->. apply lookup_delete_eq.
  - intros r'. unfold DeleteOldShareData.
    destruct (client_Del r key) as [[err|] r''] eqn:Hdel; [done|].
    intros [= <-]. apply client_Del_success in Hdel as ->. apply lookup_delete_eq.
Qed.

Lemma delete_is_idempotent_witness :
  let once := DeleteOldMinerData empty_server "miner:0xabc" in
  let twice := DeleteOldMinerData once.2 "miner:0xabc" in
  let once' := DeleteOldShareData empty_server "miner:0xabc" in
  let twice' := DeleteOldShareData once'.2 "miner:0xabc" in
  once.1 = None ∧ twice.1 = None ∧ once'.1 = None ∧ twice'.1 = None.
Proof.
  apply (proj1 (delete_is_idempotent empty_server "miner:0xabc")); [done|].
  apply lookup_empty.
Defined.

(** C10.  When the [payouts_locked] key holds a string other than ["1"],
    [IsPayoutsLocked] is [false] with no error. *)
Theorem IsPayoutsLocked_other_value (r : RedisClient) (val : string) :
  fault r (GET "payouts_locked") = None →
  db r !! "payouts_locked" = Some (RString val) →
  val ≠ "1" →
  IsPayoutsLocked r = Ok false.
Proof.
  intros Hf Hk Hval. rewrite (IsPayoutsLocked_present r val Hf Hk).
  by rewrite bool_decide_eq_false_2.
Qed.

Lemma IsPayoutsLocked_other_value_witness :
  IsPayoutsLocked (client_Set empty_server "payouts_locked" "true").2 = Ok false.
Proof.
  apply (IsPayoutsLocked_other_value _ "true"); [done| |done].
  apply lookup_insert_eq.
Defined.

End StorageFacts.

(* ===================================================================== *)
(** ** More on the reward resolver *)
(* ===================================================================== *)

Module WalkFacts.

Import Payouts Walk PayoutsFacts.

(** Whatever the order, the loop ends on [reward] as it found it or on the
    reward of an entry at or below the height. *)
Lemma range_body_source (entries : list (Z * float)) (h : Z) :
  ∀ reward,
    range_body h reward entries = reward
    ∨ ∃ k, (k, range_body h reward entries) ∈ entries ∧ k ≤ h.
Proof.
  induction entries as [|[k0 r0] rest IH]; intros reward; [by left|].
  cbn [range_body]. destruct (Z.geb_spec h k0) as [Hge|Hlt]; [|by left].
  right. destruct (IH r0) as [->|(k & Hin & Hle)].
  - exists k0. split; [apply list_elem_of_here|lia].
  - exists k. split; [by apply list_elem_of_further|done].
Qed.

Lemma last_default (l : list float) (x d d' : float) :
  List.last (x :: l) d = List.last (x :: l) d'.
Proof.
  revert x. induction l as [|y l IH]; intros x; [done|].
  change (List.last (y :: l) d = List.last (y :: l) d'). apply IH.
Qed.

Lemma range_body_assigned (entries : list (Z * float)) (h : Z) :
  ∀ reward, range_body h reward entries = List.last (assigned h entries).*2 reward.
Proof.
  induction entries as [|[k0 r0] rest IH]; intros reward; [done|].
  cbn [range_body assigned]. destruct (h >=? k0); [|done].
  rewrite IH. cbn [fmap list_fmap snd].
  destruct (assigned h rest).*2 as [|x l]; [done|].
  change (List.last (x :: l) r0 = List.last (x :: l) reward). apply last_default.
Qed.

Lemma assigned_prefix (entries : list (Z * float)) (h : Z) :
  ∃ rest, entries = assigned h entries ++ rest
          ∧ Forall (λ e, e.1 ≤ h) (assigned h entries)
          ∧ match rest with [] => True | e :: _ => h < e.1 end.
Proof.
  induction entries as [|[k0 r0] entries (rest & Heq & Hall & Hnext)].
  - by exists [].
  - cbn [assigned]. destruct (Z.geb_spec h k0) as [Hge|Hlt].
    + exists rest. split; [by rewrite <- app_comm_cons, <- Heq|].
      split; [|done]. constructor; [cbn; lia|done].
    + by exists ((k0, r0) :: entries).
Qed.

(** X1.  When the loop visits the breakpoints in ascending order of height,
    [GetReward] returns the reward of the breakpoint with the largest height
    at or below the block height, and 0.0 when there is none. *)
Theorem GetReward_in_ascending_order (config : NetworkConfig)
    (entries : list (Z * float)) (h : Z) :
  range_order (BlockReward config) entries → ascending entries →
  (∃ k, BlockReward config !! k = Some (GetReward_along entries h) ∧ k ≤ h
        ∧ ∀ k' r', BlockReward config !! k' = Some r' → k' ≤ h → k' ≤ k)
  ∨ ((∀ k' r', BlockReward config !! k' = Some r' → h < k')
     ∧ GetReward_along entries h = 0%float).
Proof. intros Horder Hasc. exact (GetReward_along_ascending _ entries h Horder Hasc). Qed.

Lemma GetReward_in_ascending_order_witness :
  (∃ k, BlockReward ZetherNetwork !! k = Some (GetReward_along ZetherRewards_literal 300000)
        ∧ k ≤ 300000
        ∧ ∀ k' r', BlockReward ZetherNetwork !! k' = Some r' → k' ≤ 300000 → k' ≤ k)
  ∨ ((∀ k' r', BlockReward ZetherNetwork !! k' = Some r' → 300000 < k')
     ∧ GetReward_along ZetherRewards_literal 300000 = 0%float).
Proof.
  apply (GetReward_in_ascending_order ZetherNetwork ZetherRewards_literal 300000).
  - apply mainnet_in_order.
  - unfold ascending, ZetherRewards_literal.
    repeat (constructor; [|repeat (constructor; [simpl; lia|]); constructor]).
    constructor.
Defined.

Lemma GetReward_source (config : NetworkConfig) (h : Z) (reward : float) :
  GetReward config h reward →
  reward = 0%float ∨ ∃ k, BlockReward config !! k = Some reward ∧ k ≤ h.
Proof.
  intros (entries & Horder & <-). unfold GetReward_along.
  destruct (range_body_source entries h 0%float) as [->|(k & Hin & Hle)]; [by left|].
  right. exists k. split; [|done].
  remember (range_body h 0%float entries) as res.
  unfold range_order in Horder. rewrite Horder in Hin.
  by apply elem_of_map_to_list.
Qed.

(** X2.  In whatever order the map is visited, [GetReward] returns 0.0 or the
    reward of a breakpoint whose height is at or below the block height:
    never a reward that is not yet in force, never a value that is not in
    the schedule. *)
Theorem GetReward_returns_zero_or_a_reward_in_force (config : NetworkConfig)
    (h : Z) (reward : float) :
  GetReward config h reward →
  reward = 0%float ∨ ∃ k, BlockReward config !! k = Some reward ∧ k ≤ h.
Proof. apply GetReward_source. Qed.

Lemma GetReward_returns_zero_or_a_reward_in_force_witness :
  25%float = 0%float
  ∨ ∃ k, BlockReward ZetherNetwork !! k = Some 25%float ∧ k ≤ 150000.
Proof.
  apply (GetReward_returns_zero_or_a_reward_in_force ZetherNetwork 150000).
  exists mainnet_rotated. split; [apply mainnet_rotated_order|reflexivity].
Defined.

(** X3.  When every breakpoint lies above the block height (an empty
    schedule is one case), [GetReward] returns 0.0, and nothing else, in
    every order. *)
Theorem GetReward_below_every_breakpoint (config : NetworkConfig) (h : Z) :
  (∀ k r, BlockReward config !! k = Some r → h < k) →
  ∀ reward, GetReward config h reward ↔ reward = 0%float.
Proof.
  intros Habove reward.
  assert (Hzero : ∀ entries, range_order (BlockReward config) entries →
                             GetReward_along entries h = 0%float).
  { intros entries Horder. apply range_body_below. intros k r Hin.
    unfold range_order in Horder. rewrite Horder in Hin.
    apply elem_of_map_to_list in Hin. by apply (Habove k r). }
  split.
  - intros (entries & Horder & <-). by apply Hzero.
  - intros ->. exists (map_to_list (BlockReward config)).
    assert (Horder : range_order (BlockReward config) (map_to_list (BlockReward config)))
      by (unfold range_order; reflexivity).
    split; [done|by apply Hzero].
Qed.

Lemma GetReward_below_every_breakpoint_witness :
  GetReward late_start 99 0%float ↔ 0%float = 0%float.
Proof.
  apply (GetReward_below_every_breakpoint late_start 99).
  intros k r Hk. cbn in Hk. apply lookup_singleton_Some in Hk as [<- _]. lia.
Defined.

(** X4.  In any order of visit, the loop assigns the rewards of the entries
    it meets up to the first entry above the block height, where it breaks
    and looks no further: [GetReward] returns the last reward assigned, 0.0
    when the first entry is already above the height. *)
Theorem GetReward_along_is_the_last_assigned (entries : list (Z * float)) (h : Z) :
  GetReward_along entries h = List.last (assigned h entries).*2 0%float
  ∧ ∃ rest, entries = assigned h entries ++ rest
            ∧ Forall (λ e, e.1 ≤ h) (assigned h entries)
            ∧ match rest with [] => True | e :: _ => h < e.1 end.
Proof. split; [apply range_body_assigned|apply assigned_prefix]. Qed.


(** X6.  For a height that is not negative, [SimulateUnlock] does not end
    in [log.Fatalf]: it prints the name of the network, the height it was
    given, a reward that is 0.0 or the one of a breakpoint at or below the
    height, and the note on uncle blocks exactly when the network has
    none. *)
Theorem SimulateUnlock_prints (config : NetworkConfig) (h : Z) :
  0 ≤ h →
  (∃ out, SimulateUnlock config h out)
  ∧ ∀ out, SimulateUnlock config h out →
           ∃ reward, out = Printed (Name config) h reward (negb (HasUncles config))
                     ∧ (reward = 0%float
                        ∨ ∃ k, BlockReward config !! k = Some reward ∧ k ≤ h).
Proof.
  intros Hh. unfold SimulateUnlock. destruct (Z.ltb_spec h 0) as [|_]; [lia|]. split.
  - destruct (GetReward_total config h) as [reward Hreward]. by eauto.
  - intros out (reward & Hreward & ->). exists reward. split; [done|].
    by apply GetReward_source.
Qed.

Lemma SimulateUnlock_prints_witness :
  (∃ out, SimulateUnlock ZetherTestnet 1500 out)
  ∧ ∀ out, SimulateUnlock ZetherTestnet 1500 out →
           ∃ reward, out = Printed (Name ZetherTestnet) 1500 reward
                             (negb (HasUncles ZetherTestnet))
                     ∧ (reward = 0%float
                        ∨ ∃ k, BlockReward ZetherTestnet !! k = Some reward ∧ k ≤ 1500).
Proof. apply (SimulateUnlock_prints ZetherTestnet 1500). lia. Defined.

End WalkFacts.

(* ===================================================================== *)
(** ** More on the ledger, the deletions and the writes *)
(* ===================================================================== *)

Module WritesFacts.

Import Json Storage Writes JsonFacts StorageFacts.

(** *** Objects in any order and letter case *)

Lemma members_text_quoted (ms : list (list ascii * field)) (Y : list ascii) :
  ms ≠ [] → ∃ key t, members_text ms ++ Y = quoted key ++ t.
Proof.
  destruct ms as [|m [|m' ms]]; [done|..]; intros _; cbn [members_text];
    unfold member_text; rewrite <- !app_assoc; by eexists _, _.
Qed.

Lemma parse_value_field (fuel : nat) (f : field) (sep : ascii) (X : list ascii) :
  match f with FAddress a => utf8_valid (chars a) = true | _ => True end →
  number_char sep = false →
  parse_value (S fuel) (value_text f ++ sep :: X) = Some (value_json f, sep :: X).
Proof.
  intros Hf Hsep. destruct f as [a|n|n]; cbn [value_text value_json].
  - by apply parse_value_string.
  - by apply parse_value_number.
  - by apply parse_value_number.
Qed.

Lemma parse_members_text (ms : list (list ascii * field)) :
  ms ≠ [] → Forall well_formed ms →
  ∀ fuel X, (length ms < fuel)%nat →
    parse_members fuel (members_text ms ++ "}"%char :: X)
    = Some ((λ m, (m.1, value_json m.2)) <$> ms, X).
Proof.
  induction ms as [|[key f] ms IH]; [done|]. intros _ Hwf fuel X Hfuel.
  apply Forall_cons in Hwf as [(Hkey & _ & Hf) Hwf]. cbn [fst snd] in Hkey, Hf.
  assert (Hvalue : match f with FAddress a => utf8_valid (chars a) = true | _ => True end)
    by (by destruct f).
  destruct fuel as [|[|fuel]]; [cbn in Hfuel; lia..|].
  destruct ms as [|m' ms].
  - cbn [members_text]. unfold member_text. cbn [fst snd].
    rewrite <- app_assoc. cbn [app].
    erewrite parse_member; [|done|by apply parse_value_field|reflexivity].
    reflexivity.
  - change (members_text ((key, f) :: m' :: ms))
      with (member_text (key, f) ++ ","%char :: members_text (m' :: ms)).
    unfold member_text at 1. cbn [fst snd]. rewrite <- !app_assoc. cbn [app].
    erewrite parse_member; [|done|by apply parse_value_field|reflexivity].
    change (is_char "," "}") with false. change (is_char "," ",") with true. cbv iota.
    destruct (members_text_quoted (m' :: ms) ("}"%char :: X)) as (key' & t & Heq); [done|].
    rewrite Heq, skip_space_quoted, <- Heq.
    rewrite (IH ltac:(done) Hwf (S fuel) X); [done|]. cbn [length] in *. lia.
Qed.

Lemma members_text_length (ms : list (list ascii * field)) :
  (length ms ≤ length (members_text ms))%nat.
Proof.
  induction ms as [|m [|m' ms] IH]; [done|..].
  - cbn [members_text]. unfold member_text, quoted.
    rewrite length_app. cbn [length]. lia.
  - change (members_text (m :: m' :: ms))
      with (member_text m ++ ","%char :: members_text (m' :: ms)).
    rewrite length_app. cbn [length] in *. lia.
Qed.

Lemma parse_object_text (ms : list (list ascii * field)) :
  Forall well_formed ms →
  parse (chars (object_text ms)) = Some (JObject ((λ m, (m.1, value_json m.2)) <$> ms)).
Proof.
  intros Hwf. unfold object_text, chars. rewrite list_ascii_of_string_of_list_ascii.
  unfold parse. destruct ms as [|m ms]; [reflexivity|].
  destruct (members_text_quoted (m :: ms) ["}"%char]) as (key & t & Heq); [done|].
  rewrite Heq, parse_value_members, <- Heq.
  rewrite (parse_members_text (m :: ms) ltac:(done) Hwf); [reflexivity|].
  pose proof (members_text_length (m :: ms)).
  cbn [length] in *. rewrite length_app. lia.
Qed.

Lemma names_apart (key : list ascii) (a b : string) :
  fold_name (chars a) ≠ fold_name (chars b) →
  names key a = true → names key b = false.
Proof.
  unfold names, chars. intros Hne Ha%bool_decide_eq_true.
  apply bool_decide_eq_false. congruence.
Qed.

Lemma store_well_formed_member (p : PendingPayment) (m : list ascii * field) :
  well_formed m →
  store_member (p, None) (m.1, value_json m.2) = (set_field p m.2, None).
Proof.
  destruct m as [key f]. intros (_ & Hname & Hf). cbn [fst snd] in *.
  unfold store_member. destruct f as [a|n|n]; cbn [field_name value_json set_field] in *.
  - rewrite Hname. cbn [store_string]. unfold chars.
    by rewrite string_of_list_ascii_of_string.
  - rewrite (names_apart key "Amount" "Address"), Hname; [|by vm_compute|done].
    cbn [store_int64]. by rewrite (ParseInt_decimal n Hf).
  - rewrite (names_apart key "Timestamp" "Address"),
      (names_apart key "Timestamp" "Amount"), Hname; [|by vm_compute|done|by vm_compute|done].
    cbn [store_int64]. by rewrite (ParseInt_decimal n Hf).
Qed.

Lemma store_well_formed_members (ms : list (list ascii * field)) :
  Forall well_formed ms →
  ∀ p, fold_left store_member ((λ m, (m.1, value_json m.2)) <$> ms) (p, None)
       = (fold_left set_field ms.*2 p, None).
Proof.
  induction 1 as [|m ms Hm _ IH]; intros p; [done|].
  cbn [fmap list_fmap fold_left]. fold (fmap (M := list) (λ m : list ascii * field, (m.1, value_json m.2)) ms).
  fold (fmap (M := list) (@snd (list ascii) field) ms).
  by rewrite (store_well_formed_member p m Hm), IH.
Qed.

(** An object of such members decodes to the zero struct with the members
    applied in their order. *)
Lemma json_Unmarshal_object_text (ms : list (list ascii * field)) :
  Forall well_formed ms →
  json_Unmarshal (object_text ms) = Ok (fold_left set_field ms.*2 zero_payment).
Proof.
  intros Hwf. unfold json_Unmarshal. fold (chars (object_text ms)).
  rewrite (parse_object_text ms Hwf).
  by rewrite (store_well_formed_members ms Hwf).
Qed.

(** A server that holds one key of the name space and nothing else lists
    what the value of the key decodes to. *)
Lemma GetPendingPayments_single (r : RedisClient) (id val : string) (p : PendingPayment) :
  (∀ c, fault r c = None) → db r = ∅ → json_Unmarshal val = Ok p →
  GetPendingPayments (client_Set r ("pending_payment:" ++ id) val).2 = Ok [p].
Proof.
  intros Hf Hdb Hdec. unfold client_Set. rewrite Hf. cbn [snd].
  unfold GetPendingPayments, client_Keys. cbn [fault db with_db].
  rewrite Hf, Hdb, insert_empty, map_to_list_singleton.
  cbn [map fst List.filter]. rewrite pending_payment_key. cbn [GetPendingPayments_loop].
  rewrite (client_Get_present _ _ val);
    [|apply Hf|cbn [db with_db]; apply lookup_singleton_eq].
  by rewrite Hdec.
Qed.

(** *** The keys of the name space *)

Lemma glob_match_plain (p : ascii) (pattern s : list ascii) :
  is_char p "*" = false → is_char p "?" = false →
  glob_match (p :: pattern) s = true →
  ∃ s', s = p :: s' ∧ glob_match pattern s' = true.
Proof.
  intros Hstar Hany. cbn [glob_match]. rewrite Hstar.
  destruct s as [|c s]; [done|]. rewrite Hany. cbn [orb].
  intros [Hc Hs]%andb_prop. apply Ascii.eqb_eq in Hc as <-. by exists s.
Qed.

(** The keys [KEYS pending_payment:*] returns are those that start with
    [pending_payment:]. *)
Lemma pending_payment_key_inv (key : string) :
  glob_match (list_ascii_of_string "pending_payment:*") (list_ascii_of_string key) = true →
  ∃ id, key = ("pending_payment:" ++ id)%string.
Proof.
  intros H. rewrite <- (string_of_list_ascii_of_string key).
  revert H. generalize (list_ascii_of_string key). intros s H.
  cbn [list_ascii_of_string] in H.
  repeat match type of H with
         | glob_match (_ :: _ :: _) _ = true =>
             apply glob_match_plain in H as (? & -> & H); [|reflexivity..]
         end.
  eexists (string_of_list_ascii _). reflexivity.
Qed.

Lemma filter_none {A} (f : A → bool) (l : list A) :
  Forall (λ x, f x = false) l → List.filter f l = [].
Proof. induction 1 as [|x l Hx _ IH]; [done|]. cbn. by rewrite Hx. Qed.

Lemma client_Keys_elem (r : RedisClient) (pattern : string) (keys : list string) (key : string) :
  client_Keys r pattern = Ok keys → key ∈ keys →
  fault r (KEYS pattern) = None
  ∧ is_Some (db r !! key)
  ∧ glob_match (list_ascii_of_string pattern) (list_ascii_of_string key) = true.
Proof.
  unfold client_Keys. destruct (fault r (KEYS pattern)); [done|]. intros [= <-] Hin.
  split; [done|]. apply list_elem_of_In, filter_In in Hin as [Hin Hmatch].
  split; [|done]. apply in_map_iff in Hin as ([k v] & <- & Hkv).
  apply list_elem_of_In, elem_of_map_to_list in Hkv. by exists v.
Qed.

(* --------------------------------------------------------------------- *)
(** *** Properties of the ledger *)
(* --------------------------------------------------------------------- *)

(** X7.  When no key of the server starts with [pending_payment:],
    [GetPendingPayments] returns the empty list and no error, whatever else
    the server holds. *)
Theorem GetPendingPayments_empty_name_space (r : RedisClient) :
  fault r (KEYS "pending_payment:*") = None →
  (∀ id, db r !! ("pending_payment:" ++ id)%string = None) →
  GetPendingPayments r = Ok [].
Proof.
  intros Hf Hnone. unfold GetPendingPayments, client_Keys. rewrite Hf.
  rewrite filter_none; [done|].
  apply Forall_forall. intros key Hin.
  apply list_elem_of_In, in_map_iff in Hin as ([k v] & <- & Hkv).
  apply list_elem_of_In, elem_of_map_to_list in Hkv. cbn [fst].
  destruct (glob_match _ _) eqn:Hmatch; [|done].
  apply pending_payment_key_inv in Hmatch as [id ->]. by rewrite Hnone in Hkv.
Qed.

Lemma GetPendingPayments_empty_name_space_witness :
  GetPendingPayments idle_server = Ok [].
Proof.
  apply GetPendingPayments_empty_name_space; [done|].
  intros id. unfold idle_server. cbn [db].
  rewrite lookup_insert_ne by done. by rewrite lookup_singleton_ne.
Defined.

Lemma GetPendingPayments_loop_app (r : RedisClient) (good : list string) :
  Forall (λ key, ∃ p, fetched r key p) good →
  ∀ more acc, ∃ ps, GetPendingPayments_loop r (good ++ more) acc
                    = GetPendingPayments_loop r more (acc ++ ps).
Proof.
  induction 1 as [|key good (p & val & Hget & Hdec) _ IH]; intros more acc.
  - exists []. by rewrite app_nil_r.
  - cbn [app GetPendingPayments_loop]. rewrite Hget, Hdec.
    destruct (IH more (acc ++ [p])) as [ps ->]. exists (p :: ps).
    by rewrite <- app_assoc.
Qed.

(** X8.  The error of the listing is that of the first key, in the order
    [KEYS] returned them, that cannot be fetched or decoded: it wraps the
    error of [GET] with the key in the message, or the error of
    [json.Unmarshal].  The keys after it are not looked at. *)
Theorem GetPendingPayments_first_failure (r : RedisClient)
    (good rest : list string) (bad : string) :
  client_Keys r "pending_payment:*" = Ok (good ++ bad :: rest) →
  Forall (λ key, ∃ p, fetched r key p) good →
  (∀ err, client_Get r bad = Err err →
          GetPendingPayments r
          = Err (Errorf ("failed to get payment data for key " ++ bad) err))
  ∧ (∀ val err, client_Get r bad = Ok val → json_Unmarshal val = Err err →
                GetPendingPayments r
                = Err (Errorf "failed to unmarshal payment data" err)).
Proof.
  intros Hkeys Hgood. unfold GetPendingPayments. rewrite Hkeys.
  destruct (GetPendingPayments_loop_app r good Hgood (bad :: rest) []) as [ps ->].
  cbn [GetPendingPayments_loop]. split.
  - intros err Hget. by rewrite Hget.
  - intros val err Hget Hdec. by rewrite Hget, Hdec.
Qed.

Lemma GetPendingPayments_first_failure_witness :
  (∀ err, client_Get broken_ledger "pending_payment:0xdef" = Err err →
          GetPendingPayments broken_ledger
          = Err (Errorf ("failed to get payment data for key " ++ "pending_payment:0xdef") err))
  ∧ (∀ val err, client_Get broken_ledger "pending_payment:0xdef" = Ok val →
                json_Unmarshal val = Err err →
                GetPendingPayments broken_ledger
                = Err (Errorf "failed to unmarshal payment data" err)).
Proof.
  apply (GetPendingPayments_first_failure broken_ledger ["pending_payment:0xabc"%string] []).
  - by vm_compute.
  - constructor; [|constructor]. exists sample_payment.
    exists (json_of_PendingPayment sample_payment). split; by vm_compute.
Defined.







(** X10.  The decoder matches the keys of a stored object with the fields
    of [PendingPayment] whatever the case of their letters and whatever
    their order; a field no member names stays zero, and of two members
    for one field the later one counts.  A server that holds one such
    object under a key of the name space lists the zero record with the
    members applied in their order. *)
Theorem GetPendingPayments_reads_members_in_order (r : RedisClient) (id : string)
    (ms : list (list ascii * field)) :
  (∀ c, fault r c = None) → db r = ∅ →
  Forall well_formed ms →
  GetPendingPayments (client_Set r ("pending_payment:" ++ id) (object_text ms)).2
  = Ok [fold_left set_field ms.*2 zero_payment].
Proof.
  intros Hf Hdb Hwf. apply GetPendingPayments_single; [done..|].
  by apply json_Unmarshal_object_text.
Qed.

Lemma GetPendingPayments_reads_members_in_order_witness :
  GetPendingPayments
    (client_Set empty_server ("pending_payment:" ++ "0xabc") (object_text shuffled_members)).2
  = Ok [sample_payment].
Proof.
  apply (GetPendingPayments_reads_members_in_order empty_server "0xabc" shuffled_members);
    [done|done|].
  unfold shuffled_members. repeat apply Forall_cons_2; [..|apply Forall_nil_2];
    (split; [reflexivity|split; [reflexivity|]]); cbn [snd];
    try reflexivity; split; by vm_compute.
Defined.

(* --------------------------------------------------------------------- *)
(** *** Deletions, writes and what they leave alone *)
(* --------------------------------------------------------------------- *)

Lemma client_Get_other_key (r : RedisClient) (d : gmap string RedisValue) (key : string) :
  d !! key = db r !! key → client_Get (with_db r d) key = client_Get r key.
Proof. intros Hd. unfold client_Get. cbn [fault db with_db]. by rewrite Hd. Qed.

Lemma Forall_choose {A B} (P : A → B → Prop) (l : list A) :
  Forall (λ x, ∃ y, P x y) l → ∃ k, Forall2 P l k.
Proof.
  induction 1 as [|x l [y Hy] _ [k Hk]]; [by exists []|].
  exists (y :: k). by constructor.
Qed.

(** X11.  Deleting a key with [DeleteOldMinerData] or [DeleteOldShareData]
    cannot break the ledger: if every other key of the name space can be
    fetched and decoded, the listing after the deletion succeeds, and each
    record it lists is the one of a key other than the deleted one that was
    there before.  So deleting the one key whose value is malformed repairs
    the listing. *)
Theorem deleting_a_key_keeps_the_listing (r : RedisClient) (keys : list string)
    (key : string) :
  fault r (DEL key) = None →
  client_Keys r "pending_payment:*" = Ok keys →
  (∀ key', key' ∈ keys → key' ≠ key → ∃ p, fetched r key' p) →
  ∀ r', r' = (DeleteOldMinerData r key).2 ∨ r' = (DeleteOldShareData r key).2 →
    ∃ payments,
      GetPendingPayments r' = Ok payments
      ∧ Forall (λ p, ∃ key', key' ∈ keys ∧ key' ≠ key ∧ fetched r key' p) payments.
Proof.
  intros Hdel Hkeys Hothers r' Hr'.
  assert (r' = with_db r (delete key (db r))) as ->.
  { unfold DeleteOldMinerData, DeleteOldShareData in Hr'.
    rewrite (client_Del_reached r key Hdel) in Hr'. by destruct Hr'. }
  assert (Hf : fault r (KEYS "pending_payment:*") = None).
  { unfold client_Keys in Hkeys. by destruct (fault r (KEYS "pending_payment:*")). }
  assert (Hsame : ∀ key' p, key' ≠ key →
            fetched (with_db r (delete key (db r))) key' p ↔ fetched r key' p).
  { intros key' p Hne. unfold fetched. rewrite client_Get_other_key; [done|].
    by apply lookup_delete_ne. }
  destruct (client_Keys (with_db r (delete key (db r))) "pending_payment:*")
    as [keys'|err] eqn:Hkeys'.
  2: { unfold client_Keys in Hkeys'. cbn [fault with_db] in Hkeys'.
       by rewrite Hf in Hkeys'. }
  assert (Hin : ∀ key', key' ∈ keys' → key' ∈ keys ∧ key' ≠ key).
  { intros key' Hin'.
    destruct (client_Keys_elem _ _ _ _ Hkeys' Hin') as (_ & [v Hv] & Hmatch).
    cbn [db with_db] in Hv. apply lookup_delete_Some in Hv as [Hne Hv].
    split; [|done]. unfold client_Keys in Hkeys. rewrite Hf in Hkeys.
    injection Hkeys as <-. apply list_elem_of_In, filter_In. split; [|done].
    apply in_map_iff. exists (key', v). split; [done|].
    by apply list_elem_of_In, elem_of_map_to_list. }
  destruct (Forall_choose
              (λ key' p, fetched (with_db r (delete key (db r))) key' p
                         ∧ key' ∈ keys ∧ key' ≠ key) keys') as [payments Hall].
  { apply Forall_forall. intros key' Hin'. destruct (Hin key' Hin') as [Hk Hne].
    destruct (Hothers key' Hk Hne) as [p Hp]. exists p. by rewrite Hsame. }
  exists payments. split.
  - unfold GetPendingPayments. rewrite Hkeys', GetPendingPayments_loop_Ok.
    exists payments. split; [done|]. eapply Forall2_impl; [exact Hall|].
    by intros key' p [Hp _].
  - apply (Forall2_Forall_r _ _ _ _ Hall). apply Forall_forall.
    intros key' _ p (Hp & Hk & Hne). exists key'. by rewrite <- (Hsame key' p Hne).
Qed.

Lemma deleting_a_key_keeps_the_listing_witness :
  ∃ payments,
    GetPendingPayments (DeleteOldMinerData broken_ledger "pending_payment:0xdef").2
    = Ok payments
    ∧ Forall (λ p, ∃ key', key' ∈ ["pending_payment:0xabc"; "pending_payment:0xdef"]%string
                           ∧ key' ≠ "pending_payment:0xdef"%string
                           ∧ fetched broken_ledger key' p) payments.
Proof.
  apply (deleting_a_key_keeps_the_listing broken_ledger
           ["pending_payment:0xabc"; "pending_payment:0xdef"]%string
           "pending_payment:0xdef"); [done|by vm_compute| |by left].
  intros key' [->|[->|[]%elem_of_nil]%elem_of_cons]%elem_of_cons Hne; [|done].
  exists sample_payment, (json_of_PendingPayment sample_payment). split; by vm_compute.
Defined.

Lemma IsPayoutsLocked_with_db (r : RedisClient) (d : gmap string RedisValue) :
  d !! "payouts_locked" = db r !! "payouts_locked" →
  IsPayoutsLocked (with_db r d) = IsPayoutsLocked r.
Proof. intros Hd. unfold IsPayoutsLocked. by rewrite client_Get_other_key. Qed.



(** X13.  A write takes any key too.  After [StoreExchangeData],
    [WriteMinerCharts] or [WritePoolCharts] has written the text [text]
    under a key, the key holds that text and what it held before, of
    whatever type, is gone; [IsPayoutsLocked] answers as before when the key
    is another one, and answers whether [text] is ["1"] when the key is
    [payouts_locked].  A chart that [json.Marshal] refuses is not written:
    the error is returned, wrapped, and the server is left as it was. *)
Theorem writes_and_the_lock {Data : Type} (FormatFloat : float → string)
    (json_Marshal : Data → result string) (r : RedisClient) (key : string)
    (value : float) (data : Data) :
  (∀ text, FormatFloat value = text → json_Marshal data = Ok text →
           fault r (SET key text) = None →
     let after := [ (StoreExchangeData FormatFloat r key value).2;
                    (WriteMinerCharts json_Marshal r key data).2;
                    (WritePoolCharts json_Marshal r key data).2 ] in
     Forall (λ r', db r' = <[key := RString text]> (db r)) after
     ∧ (key ≠ "payouts_locked" →
        Forall (λ r', IsPayoutsLocked r' = IsPayoutsLocked r) after)
     ∧ (key = "payouts_locked" → fault r (GET key) = None →
        Forall (λ r', IsPayoutsLocked r' = Ok (bool_decide (text = "1"))) after))
  ∧ (∀ err, json_Marshal data = Err err →
            WriteMinerCharts json_Marshal r key data
            = (Some (Errorf "failed to marshal chart data" err), r)
            ∧ WritePoolCharts json_Marshal r key data
              = (Some (Errorf "failed to marshal pool chart data" err), r)).
Proof.
  unfold StoreExchangeData, WriteMinerCharts, WritePoolCharts, client_Set. split.
  - intros text Hformat Hmarshal Hset.
    rewrite Hformat, Hmarshal, Hset. cbn [snd]. split; [|split].
    + by repeat constructor.
    + intros Hne.
      repeat constructor; apply IsPayoutsLocked_with_db; by apply lookup_insert_ne.
    + intros -> Hget.
      repeat constructor; (apply IsPayoutsLocked_present; [done|apply lookup_insert_eq]).
  - intros err ->. done.
Qed.

Lemma writes_and_the_lock_witness :
  let after := [ (StoreExchangeData format_one empty_server "payouts_locked" 1%float).2;
                 (WriteMinerCharts marshal_int64 empty_server "payouts_locked" 1).2;
                 (WritePoolCharts marshal_int64 empty_server "payouts_locked" 1).2 ] in
  Forall (λ r', IsPayoutsLocked r' = Ok true) after.
Proof.
  apply (proj1 (writes_and_the_lock format_one marshal_int64 empty_server
                  "payouts_locked" 1%float 1) "1"); done.
Defined.

(** X14.  [GetBlacklist] and [GetWhitelist] return the members of the sets
    [blacklist] and [whitelist], each member once.  A set that does not
    exist is the empty list and no error; a key of that name that holds a
    string is an error, as is a failure of the command. *)
Theorem access_lists (r : RedisClient) :
  let reads := [ (GetBlacklist r, "blacklist", "failed to get blacklist");
                 (GetWhitelist r, "whitelist", "failed to get whitelist") ] in
  Forall (λ '(got, key, message),
            match fault r (SMEMBERS key), db r !! key with
            | Some msg, _ => got = Err (Errorf message (redis_Error msg))
            | None, None => got = Ok []
            | None, Some (RSet members) =>
                ∃ l, got = Ok l ∧ NoDup l ∧ ∀ a, a ∈ l ↔ a ∈ members
            | None, Some (RString _) => got = Err (Errorf message wrong_type)
            end) reads.
Proof.
  cbn zeta. unfold GetBlacklist, GetWhitelist, client_SMembers.
  repeat constructor.
  - destruct (fault r (SMEMBERS "blacklist")); [done|].
    destruct (db r !! "blacklist") as [[val|members]|]; [done| |done].
    exists (elements members). split; [done|]. split; [apply NoDup_elements|].
    intros a. apply elem_of_elements.
  - destruct (fault r (SMEMBERS "whitelist")); [done|].
    destruct (db r !! "whitelist") as [[val|members]|]; [done| |done].
    exists (elements members). split; [done|]. split; [apply NoDup_elements|].
    intros a. apply elem_of_elements.
Qed.

Lemma access_lists_witness :
  (∃ l, GetBlacklist idle_server = Ok l ∧ NoDup l
        ∧ ∀ a, a ∈ l ↔ a ∈ ({[ "0xbad" ]} : gset string))
  ∧ GetWhitelist idle_server = Ok [].
Proof.
  pose proof (access_lists idle_server) as Hlists. cbn zeta in Hlists.
  apply Forall_cons in Hlists as [Hblack Hlists].
  apply Forall_cons in Hlists as [Hwhite _].
  split; [exact Hblack|exact Hwhite].
Defined.

End WritesFacts.
